(** * ChatRoom server: frame codec, room and session, as a shallow embedding

    The development follows [src/ChatRoom/server.cpp]: the class
    [chat_message] (the length-prefixed frame), the class [chat_room]
    (membership, bounded history, broadcast) and the class [chat_session]
    (the callback-driven read and write loops over one socket).

    Conventions of the embedding.
    - A [char] object is one 8-bit byte, an [ascii]; a [std::string] is a
      [string], the sequence of its bytes.  Whether plain [char] is a
      signed type is implementation-defined in C++ (signed on x86 and
      x86-64 with GCC, Clang and MSVC, unsigned on the ARM and PowerPC
      ABIs of Linux); it is the parameter [char_sign] of the one place
      where the code promotes a [char] to [int] ([decode_header]).
    - [std::size_t] is an unsigned 64-bit integer and [int] a 32-bit
      two's complement integer, both carried as [Z] with the wrap-around
      written out.
    - A [std::shared_ptr<chat_participant>] is a [nat], the identity of the
      session object; the objects live in a finite map from identities.
    - [std::set] is a [gset], [std::deque] a [list] (front at the head). *)

From Stdlib Require Import ZArith NArith Ascii String List Lia Zbitwise.
From stdpp Require Import base numbers list strings gmap fin_maps relations.

#[local] Set Warnings "-clear-no-such-hyp".

Local Open Scope Z_scope.

(** ** Integer types *)

Inductive char_sign := SignedChar | UnsignedChar.

(** Integral promotion of a plain [char] to [int]. *)
Definition char_to_int (cs : char_sign) (c : ascii) : Z :=
  let u := Z.of_N (N_of_ascii c) in
  match cs with
  | SignedChar => if 128 <=? u then u - 256 else u
  | UnsignedChar => u
  end.

(** Conversion of an integer to [char]: the low eight bits are kept. *)
Definition int_to_char (z : Z) : ascii := ascii_of_N (Z.to_N (z mod 256)).

(** Wrap-around of [int] (32 bits, two's complement). *)
Definition wrap_int (z : Z) : Z := (z + 2 ^ 31) mod 2 ^ 32 - 2 ^ 31.

(** Conversion to [std::size_t] (64 bits, unsigned). *)
Definition to_size_t (z : Z) : Z := z mod 2 ^ 64.

(** [c << k] on a promoted [char]. *)
Definition shl_int (c : Z) (k : Z) : Z := wrap_int (Z.shiftl c k).

(** [a | b] on two [int]s. *)
Definition or_int (a b : Z) : Z := wrap_int (Z.lor a b).

(** ** chat_message *)

Module chat_message.

Definition header_length : nat := 4.
Definition max_body_length : Z := 512.

(** [data_] is the array [char data_[header_length + max_body_length]],
    [body_length_] the [std::size_t] field. *)
Record t := mk { data_ : list ascii; body_length_ : Z }.

Definition data_size : nat := header_length + Z.to_nat max_body_length.

(** Element read [a[i]]. *)
Definition at_ (a : list ascii) (i : nat) : ascii := nth i a Ascii.zero.

(** Writing [src] into the array from offset [off] on ([std::memcpy] into
    [data_ + off], or the bytes an [async_read] stores). *)
Definition store (off : nat) (src : list ascii) (a : list ascii) : list ascii :=
  take off a ++ src ++ drop (off + length src) a.

(** The bytes of an array that nothing has written yet are indeterminate
    in C++; no function below reads such a byte, and the embedding takes
    them as zero. *)
Definition fresh_data : list ascii := replicate data_size Ascii.zero.

(** [chat_message()] *)
Definition default : t := mk fresh_data 0.

(** [length()] *)
Definition length (m : t) : Z := Z.of_nat header_length + body_length_ m.

(** [body_length()] *)
Definition body_length (m : t) : Z := body_length_ m.

(** [body_length(new_length)] *)
Definition set_body_length (new_length : Z) (m : t) : t :=
  let n := to_size_t new_length in
  mk (data_ m) (if n >? max_body_length then max_body_length else n).

(** [encode_header()] *)
Definition encode_header (m : t) : t :=
  let n := body_length_ m in
  let d0 := int_to_char (Z.land (Z.shiftr n 24) 255) in
  let d1 := int_to_char (Z.land (Z.shiftr n 16) 255) in
  let d2 := int_to_char (Z.land (Z.shiftr n 8) 255) in
  let d3 := int_to_char (Z.land n 255) in
  mk (store 0 [d0; d1; d2; d3] (data_ m)) n.

(** The value [decode_header] assigns to [body_length_] before its test:
    the four [char]s are promoted to [int], shifted and or-ed as [int]s,
    and the [int] result is converted to [std::size_t]. *)
Definition header_value (cs : char_sign) (a : list ascii) : Z :=
  let c i := char_to_int cs (at_ a i) in
  to_size_t
    (or_int (or_int (or_int (shl_int (c 0%nat) 24) (shl_int (c 1%nat) 16))
                    (shl_int (c 2%nat) 8))
            (c 3%nat)).

(** [decode_header()]: the message after the call and the returned [bool]. *)
Definition decode_header (cs : char_sign) (m : t) : t * bool :=
  let n := header_value cs (data_ m) in
  if n >? max_body_length then (mk (data_ m) 0, false)
  else (mk (data_ m) n, true).

(** [chat_message(std::string const& msg)] *)
Definition of_string (msg : string) : t :=
  let n0 := Z.of_nat (String.length msg) in
  let n := if n0 >? max_body_length then max_body_length else n0 in
  let d := store header_length (take (Z.to_nat n) (list_ascii_of_string msg))
                 fresh_data in
  encode_header (mk d n).

(** [body()] restricted to [body_length()] bytes. *)
Definition body (m : t) : list ascii :=
  take (Z.to_nat (body_length_ m)) (drop header_length (data_ m)).

(** The bytes [data() .. data() + length()] handed to [async_write]. *)
Definition frame (m : t) : list ascii := take (Z.to_nat (length m)) (data_ m).

(** The header of a message: its first four bytes. *)
Definition header (m : t) : list ascii := take header_length (data_ m).

End chat_message.

(** The big-endian value of four bytes, as the wire format defines it. *)
Definition be32 (b0 b1 b2 b3 : ascii) : Z :=
  let u c := Z.of_N (N_of_ascii c) in
  u b0 * 2 ^ 24 + u b1 * 2 ^ 16 + u b2 * 2 ^ 8 + u b3.

(** ** Sessions and the room

    A [std::shared_ptr<chat_participant>] is the identity of a session
    object.  [chat_session] is the only implementation of
    [chat_participant]. *)

Inductive error_code := success | failure.

(** [tcp::socket], as far as the session uses it: the asynchronous
    operations started on it that have not completed yet, oldest first,
    and the buffers whose [async_write] has completed without error. *)
Inductive read_op := ReadHeader | ReadBody.

Record socket := mk_socket {
  reads : list read_op;
  writes : list (list ascii);
  written : list (list ascii)
}.

Module chat_session.

Inductive auth_state := NOT_AUTHED | AUTHED | FAILED.

Record t := mk {
  socket_ : socket;
  state_ : auth_state;
  nickname_ : string;
  read_msg_ : chat_message.t;
  write_msgs_ : list chat_message.t
}.

(** [chat_session(socket, room)] *)
Definition new : t :=
  mk (mk_socket [] [] []) NOT_AUTHED "" chat_message.default [].

Definition set_socket (f : socket -> socket) (s : t) : t :=
  mk (f (socket_ s)) (state_ s) (nickname_ s) (read_msg_ s) (write_msgs_ s).

(** [do_write()]: starts an [async_write] of [write_msgs_.front()].  On an
    empty queue [front()] has no defined behaviour; the code never calls
    [do_write] there and the embedding starts nothing. *)
Definition do_write (s : t) : t :=
  match write_msgs_ s with
  | [] => s
  | m :: _ =>
      set_socket (fun k => mk_socket (reads k) (writes k ++ [chat_message.frame m])
                                     (written k)) s
  end.

(** [deliver(msg)]: [push_back] converts the string with
    [chat_message(std::string const&)]. *)
Definition deliver (msg : string) (s : t) : t :=
  let write_in_progress := negb (bool_decide (write_msgs_ s = [])) in
  let s1 := mk (socket_ s) (state_ s) (nickname_ s) (read_msg_ s)
               (write_msgs_ s ++ [chat_message.of_string msg]) in
  if negb write_in_progress then do_write s1 else s1.

(** [nickname()] *)
Definition nickname (s : t) : string := nickname_ s.

(** [do_read_header()] and [do_read_body()]: each starts one
    [async_read]; the handlers are [on_read_header] and [on_read_body]
    below, since they call into the room. *)
Definition do_read_header (s : t) : t :=
  set_socket (fun k => mk_socket (reads k ++ [ReadHeader]) (writes k) (written k)) s.

Definition do_read_body (s : t) : t :=
  set_socket (fun k => mk_socket (reads k ++ [ReadBody]) (writes k) (written k)) s.

End chat_session.

Module chat_room.

Definition max_recent_msgs : nat := 100.

Record t := mk {
  room_name_ : string;
  participants_ : gset nat;
  recent_msgs_ : list string
}.

End chat_room.

(** The state of the process: the [chat_room] member of [chat_server] and
    the session objects that exist. *)
Record server := mk_server {
  room_ : chat_room.t;
  sessions : gmap nat chat_session.t
}.

Definition set_room (f : chat_room.t -> chat_room.t) (w : server) : server :=
  mk_server (f (room_ w)) (sessions w).

(** [participant->deliver(msg)].  A [shared_ptr] held by the room keeps
    its session alive, so the identity is always bound; on an unbound
    identity the embedding does nothing. *)
Definition participant_deliver (p : nat) (msg : string) (w : server) : server :=
  mk_server (room_ w) (alter (chat_session.deliver msg) p (sessions w)).

(** [participant->nickname()] *)
Definition participant_nickname (p : nat) (w : server) : string :=
  match sessions w !! p with
  | Some s => chat_session.nickname s
  | None => ""
  end.

(** The loop [for (participant : participants_) if (x != participant)
    participant->deliver(text)] of [deliver] and [system_prompt].  The
    loop body does not change [participants_], so the loop runs over the
    elements the set has on entry.  [std::set] visits them in the order
    of the pointers; a call of [deliver] touches the one session it is
    called on, so the order among different sessions does not show in any
    session. *)
Definition deliver_to_others (x : nat) (text : string) (w : server) : server :=
  foldl (fun w' participant =>
           if decide (x ≠ participant) then participant_deliver participant text w'
           else w')
        w (elements (chat_room.participants_ (room_ w))).

(** [while (recent_msgs_.size() > max_recent_msgs) recent_msgs_.pop_front()] *)
Fixpoint pop_while_over (recent : list string) : list string :=
  match recent with
  | [] => []
  | _ :: rest =>
      if (chat_room.max_recent_msgs <? List.length recent)%nat
      then pop_while_over rest
      else recent
  end.

Definition history_delimiter : string := "----------以上是历史聊天记录----------".
Definition joined_suffix : string := "加入了聊天室――".
Definition says : string := " says: ".
Definition system_prefix : string := "system prompt: ".
Definition newline : string := String "010" EmptyString.
Definition auth_passed : string :=
  "----------通过验证，开始聊天----------" +:+ newline +:+ newline.
Definition welcome (room_name : string) : string :=
  "欢迎来到聊天室[" +:+ room_name +:+ "]，请输入你的用户名：".

(** [chat_room::system_prompt(msg, blocked_user)] *)
Definition system_prompt (msg : string) (blocked_user : nat) (w : server) : server :=
  deliver_to_others blocked_user (system_prefix +:+ msg) w.

(** [chat_room::join(participant)] *)
Definition join (participant : nat) (w : server) : server :=
  let w1 := set_room (fun r => chat_room.mk (chat_room.room_name_ r)
                                 ({[participant]} ∪ chat_room.participants_ r)
                                 (chat_room.recent_msgs_ r)) w in
  let recent := chat_room.recent_msgs_ (room_ w1) in
  let w2 := foldl (fun w' msg => participant_deliver participant msg w') w1 recent in
  let w3 := if bool_decide (recent = []) then w2
            else participant_deliver participant history_delimiter w2 in
  system_prompt (participant_nickname participant w3 +:+ joined_suffix) participant w3.

(** [chat_room::leave(participant)] *)
Definition leave (participant : nat) (w : server) : server :=
  set_room (fun r => chat_room.mk (chat_room.room_name_ r)
                       (chat_room.participants_ r ∖ {[participant]})
                       (chat_room.recent_msgs_ r)) w.

(** [chat_room::deliver(msg, sender)] *)
Definition room_deliver (msg : string) (sender : nat) (w : server) : server :=
  let text := participant_nickname sender w +:+ says +:+ msg in
  let w1 := set_room (fun r => chat_room.mk (chat_room.room_name_ r)
                                 (chat_room.participants_ r)
                                 (pop_while_over (chat_room.recent_msgs_ r ++ [text]))) w in
  deliver_to_others sender text w1.

(** ** The session's completion handlers and the accept loop *)

Definition put_session (p : nat) (s : chat_session.t) (w : server) : server :=
  mk_server (room_ w) (<[p := s]> (sessions w)).

Definition on_session (p : nat) (f : chat_session.t -> chat_session.t)
    (w : server) : server :=
  mk_server (room_ w) (alter f p (sessions w)).

(** The operation at the front of [reads] has completed. *)
Definition read_completed (bytes_at : nat) (bytes : list ascii)
    (s : chat_session.t) : chat_session.t :=
  let k := chat_session.socket_ s in
  let m := chat_session.read_msg_ s in
  chat_session.mk (mk_socket (tail (reads k)) (writes k) (written k))
    (chat_session.state_ s) (chat_session.nickname_ s)
    (chat_message.mk (chat_message.store bytes_at bytes (chat_message.data_ m))
                     (chat_message.body_length_ m))
    (chat_session.write_msgs_ s).

Definition set_read_msg (m : chat_message.t) (s : chat_session.t) : chat_session.t :=
  chat_session.mk (chat_session.socket_ s) (chat_session.state_ s)
    (chat_session.nickname_ s) m (chat_session.write_msgs_ s).

(** The handler of [do_read_header]: [if (!ec && read_msg_.decode_header())
    do_read_body(); else room_.leave(shared_from_this());].  [bytes] are
    the bytes the read has stored into [read_msg_.data()]. *)
Definition on_read_header (cs : char_sign) (p : nat) (ec : error_code)
    (bytes : list ascii) (w : server) : option server :=
  match sessions w !! p with
  | Some s =>
      match reads (chat_session.socket_ s) with
      | ReadHeader :: _ =>
          let s1 := read_completed 0 (take chat_message.header_length bytes) s in
          match ec with
          | success =>
              let '(m, ok) := chat_message.decode_header cs (chat_session.read_msg_ s1) in
              let s2 := set_read_msg m s1 in
              if ok then Some (put_session p (chat_session.do_read_body s2) w)
              else Some (leave p (put_session p s2 w))
          | failure => Some (leave p (put_session p s1 w))
          end
      | _ => None
      end
  | None => None
  end.

(** [std::string(read_msg_.body(), read_msg_.body_length())] *)
Definition body_string (s : chat_session.t) : string :=
  string_of_list_ascii (chat_message.body (chat_session.read_msg_ s)).

(** The handler of [do_read_body]. *)
Definition on_read_body (p : nat) (ec : error_code) (bytes : list ascii)
    (w : server) : option server :=
  match sessions w !! p with
  | Some s =>
      match reads (chat_session.socket_ s) with
      | ReadBody :: _ =>
          let n := Z.to_nat (chat_message.body_length (chat_session.read_msg_ s)) in
          let s1 := read_completed chat_message.header_length (take n bytes) s in
          match ec with
          | success =>
              let w1 :=
                match chat_session.state_ s1 with
                | chat_session.NOT_AUTHED =>
                    let s2 := chat_session.mk (chat_session.socket_ s1)
                                chat_session.AUTHED (body_string s1)
                                (chat_session.read_msg_ s1)
                                (chat_session.write_msgs_ s1) in
                    join p (participant_deliver p auth_passed (put_session p s2 w))
                | chat_session.AUTHED =>
                    room_deliver (body_string s1) p (put_session p s1 w)
                | chat_session.FAILED => put_session p s1 w
                end in
              Some (on_session p chat_session.do_read_header w1)
          | failure => Some (leave p (put_session p s1 w))
          end
      | _ => None
      end
  | None => None
  end.

(** The handler of [do_write]. *)
Definition on_write (p : nat) (ec : error_code) (w : server) : option server :=
  match sessions w !! p with
  | Some s =>
      let k := chat_session.socket_ s in
      match writes k with
      | buf :: rest =>
          match ec with
          | success =>
              let s1 := chat_session.mk
                          (mk_socket (reads k) rest (written k ++ [buf]))
                          (chat_session.state_ s) (chat_session.nickname_ s)
                          (chat_session.read_msg_ s)
                          (tail (chat_session.write_msgs_ s)) in
              let s2 := if bool_decide (chat_session.write_msgs_ s1 = []) then s1
                        else chat_session.do_write s1 in
              Some (put_session p s2 w)
          | failure =>
              let s1 := chat_session.set_socket
                          (fun k => mk_socket (reads k) rest (written k)) s in
              Some (leave p (put_session p s1 w))
          end
      | [] => None
      end
  | None => None
  end.

(** [chat_session::start()] *)
Definition start (p : nat) (w : server) : server :=
  let w1 := participant_deliver p (welcome (chat_room.room_name_ (room_ w))) w in
  on_session p chat_session.do_read_header w1.

(** The handler of [chat_server::do_accept]; [p] is the session object
    [std::make_shared] creates, a fresh identity. *)
Definition on_accept (ec : error_code) (p : nat) (w : server) : option server :=
  match ec with
  | success =>
      match sessions w !! p with
      | None => Some (start p (put_session p chat_session.new w))
      | Some _ => None
      end
  | failure => Some w
  end.

(** [chat_server(io_context, endpoint)]: the room is named, no session
    exists. *)
Definition chat_server : server :=
  mk_server (chat_room.mk "10001" ∅ []) ∅.

(** The completions the event loop can dispatch. *)
Inductive event :=
| Accepted (ec : error_code) (p : nat)
| HeaderRead (p : nat) (ec : error_code) (bytes : list ascii)
| BodyRead (p : nat) (ec : error_code) (bytes : list ascii)
| Written (p : nat) (ec : error_code).

(** One handler run; [None] when no such operation is outstanding. *)
Definition step (cs : char_sign) (w : server) (ev : event) : option server :=
  match ev with
  | Accepted ec p => on_accept ec p w
  | HeaderRead p ec bytes => on_read_header cs p ec bytes w
  | BodyRead p ec bytes => on_read_body p ec bytes w
  | Written p ec => on_write p ec w
  end.

(** [io_context.run()] over a sequence of completions. *)
Fixpoint run (cs : char_sign) (w : server) (evs : list event) : option server :=
  match evs with
  | [] => Some w
  | ev :: rest =>
      match step cs w ev with
      | Some w' => run cs w' rest
      | None => None
      end
  end.

Definition reachable (cs : char_sign) (w : server) : Prop :=
  exists evs, run cs chat_server evs = Some w.

(** ** Notions the statements use *)

(** [deliver] called once for each text, in order. *)
Definition deliver_list (texts : list string) (s : chat_session.t) : chat_session.t :=
  foldl (fun s' text => chat_session.deliver text s') s texts.

(** Every frame the session has been given to send, oldest first: the
    frames already written to the socket followed by the queue. *)
Definition outbound (s : chat_session.t) : list (list ascii) :=
  written (chat_session.socket_ s) ++ map chat_message.frame (chat_session.write_msgs_ s).

(** At most one read and at most one write are outstanding, and the write
    is of the frame at the front of the queue. *)
Definition session_ok (s : chat_session.t) : Prop :=
  (List.length (reads (chat_session.socket_ s)) <= 1)%nat /\
  (writes (chat_session.socket_ s) = [] \/
   exists m rest, chat_session.write_msgs_ s = m :: rest /\
                  writes (chat_session.socket_ s) = [chat_message.frame m]).

(** Every session is in order and not in state [FAILED], and every member
    of the room is a session that exists. *)
Definition server_ok (w : server) : Prop :=
  (forall p s, sessions w !! p = Some s ->
     session_ok s /\ chat_session.state_ s <> chat_session.FAILED) /\
  chat_room.participants_ (room_ w) ⊆ dom (sessions w).

(** The session has no read outstanding. *)
Definition reads_stopped (p : nat) (w : server) : Prop :=
  exists s, sessions w !! p = Some s /\ reads (chat_session.socket_ s) = [].

(** [ev] is the completion of a read of session [p]. *)
Definition is_read_of (p : nat) (ev : event) : Prop :=
  match ev with
  | HeaderRead q _ _ | BodyRead q _ _ => q = p
  | _ => False
  end.

(** [ev] is a read of session [p] that fails in state [w]: a header or
    body read that completes with an error, or a header read that
    completes and whose header [decode_header] refuses. *)
Definition read_fails (cs : char_sign) (p : nat) (ev : event) (w : server) : Prop :=
  match ev with
  | HeaderRead q failure _ | BodyRead q failure _ => q = p
  | HeaderRead q success bytes =>
      q = p /\
      exists s, sessions w !! p = Some s /\
        snd (chat_message.decode_header cs
               (chat_session.read_msg_
                  (read_completed 0 (take chat_message.header_length bytes) s))) = false
  | _ => False
  end.

(** The changes one handler run or one [deliver] makes to a session. *)
Inductive session_step : chat_session.t -> chat_session.t -> Prop :=
| ss_deliver text s :
    session_step s (chat_session.deliver text s)
| ss_header_accepted s rest bytes m :
    reads (chat_session.socket_ s) = ReadHeader :: rest ->
    session_step s (chat_session.do_read_body (set_read_msg m (read_completed 0 bytes s)))
| ss_header_refused s rest bytes m :
    reads (chat_session.socket_ s) = ReadHeader :: rest ->
    session_step s (set_read_msg m (read_completed 0 bytes s))
| ss_body_read s rest bytes st nick :
    reads (chat_session.socket_ s) = ReadBody :: rest ->
    st = chat_session.AUTHED \/ st = chat_session.state_ s ->
    let s1 := read_completed chat_message.header_length bytes s in
    session_step s
      (chat_session.do_read_header
         (chat_session.mk (chat_session.socket_ s1) st nick
            (chat_session.read_msg_ s1) (chat_session.write_msgs_ s1)))
| ss_body_failed s rest bytes :
    reads (chat_session.socket_ s) = ReadBody :: rest ->
    session_step s (read_completed chat_message.header_length bytes s)
| ss_written s buf rest :
    writes (chat_session.socket_ s) = buf :: rest ->
    let k := chat_session.socket_ s in
    let s1 := chat_session.mk (mk_socket (reads k) rest (written k ++ [buf]))
                (chat_session.state_ s) (chat_session.nickname_ s)
                (chat_session.read_msg_ s) (tail (chat_session.write_msgs_ s)) in
    session_step s (if bool_decide (chat_session.write_msgs_ s1 = []) then s1
                    else chat_session.do_write s1)
| ss_write_failed s buf rest :
    writes (chat_session.socket_ s) = buf :: rest ->
    session_step s (chat_session.set_socket
                      (fun k => mk_socket (reads k) rest (written k)) s).

(** What [chat_room::join] hands to the joining session: the history,
    and the delimiter line after it when the history is not empty. *)
Definition replayed (recent : list string) : list string :=
  recent ++ (if bool_decide (recent = []) then [] else [history_delimiter]).

(** [chat_room::deliver] called once for each body, in order, by [sender]. *)
Definition room_deliver_all (msgs : list string) (sender : nat) (w : server) : server :=
  foldl (fun w' msg => room_deliver msg sender w') w msgs.

(** A payload of [n] bytes. *)
Definition payload (n : nat) : string := string_of_list_ascii (replicate n "a"%char).

(** ** Sample runs *)

(** The two completions of one frame that carries [text], read by session
    [p]. *)
Definition frame_read (p : nat) (text : string) : list event :=
  let m := chat_message.of_string text in
  [HeaderRead p success (chat_message.header m);
   BodyRead p success (chat_message.body m)].

(** One connection is accepted and names itself "alice". *)
Definition alice_joins : list event :=
  Accepted success 1%nat :: frame_read 1%nat "alice".

(** A second connection then names itself "bob". *)
Definition bob_joins : list event :=
  alice_joins ++ Accepted success 2%nat :: frame_read 2%nat "bob".

(** The state after a run from the start state ([chat_server] when the run
    is not possible). *)
Definition after (cs : char_sign) (evs : list event) : server :=
  match run cs chat_server evs with
  | Some w => w
  | None => chat_server
  end.

(** A header that declares 513 bytes. *)
Definition oversized_header : list ascii := ["000"; "000"; "002"; "001"]%char.

(** ** Notions of the further statements *)

(** The length the header bytes of a message declare: the big-endian
    value of [data_[0]] to [data_[3]]. *)
Definition declared_length (m : chat_message.t) : Z :=
  be32 (chat_message.at_ (chat_message.data_ m) 0)
       (chat_message.at_ (chat_message.data_ m) 1)
       (chat_message.at_ (chat_message.data_ m) 2)
       (chat_message.at_ (chat_message.data_ m) 3).

(** Every header byte is below 0x80. *)
Definition header_bytes_low (m : chat_message.t) : Prop :=
  forall i, (i < 4)%nat ->
    Z.of_N (N_of_ascii (chat_message.at_ (chat_message.data_ m) i)) < 128.

(** The class invariant of [chat_message]: the declared body length is
    within the bound and [data_] has the size of the array. *)
Definition msg_ok (m : chat_message.t) : Prop :=
  0 <= chat_message.body_length_ m <= chat_message.max_body_length /\
  List.length (chat_message.data_ m) = chat_message.data_size.

(** The messages a session holds are in order. *)
Definition session_msgs_ok (s : chat_session.t) : Prop :=
  msg_ok (chat_session.read_msg_ s) /\ Forall msg_ok (chat_session.write_msgs_ s).

(** [decode_header] reads back a header that declares [n] bytes: always
    with an unsigned [char], and with a signed one when the last header
    byte is below 0x80. *)
Definition header_readable (cs : char_sign) (n : Z) : Prop :=
  cs = UnsignedChar \/ n mod 256 < 128.

(** The session has frames queued and no write outstanding. *)
Definition writes_stalled (p : nat) (w : server) : Prop :=
  exists s, sessions w !! p = Some s /\
    writes (chat_session.socket_ s) = [] /\ chat_session.write_msgs_ s <> [].

(** [ev] is the completion of a write of session [p]. *)
Definition is_write_of (p : nat) (ev : event) : Prop :=
  match ev with
  | Written q _ => q = p
  | _ => False
  end.

(** The session of an event. *)
Definition session_of (ev : event) : nat :=
  match ev with
  | Accepted _ p | HeaderRead p _ _ | BodyRead p _ _ | Written p _ => p
  end.

(** What the handler of a completed operation does to its own session,
    with the values it computes, before the room delivers anything to
    that session. *)
Inductive handler_step (cs : char_sign) : chat_session.t -> chat_session.t -> Prop :=
| hs_header_accepted s rest bytes m :
    reads (chat_session.socket_ s) = ReadHeader :: rest ->
    let s1 := read_completed 0 (take chat_message.header_length bytes) s in
    chat_message.decode_header cs (chat_session.read_msg_ s1) = (m, true) ->
    handler_step cs s (chat_session.do_read_body (set_read_msg m s1))
| hs_header_refused s rest bytes m :
    reads (chat_session.socket_ s) = ReadHeader :: rest ->
    let s1 := read_completed 0 (take chat_message.header_length bytes) s in
    chat_message.decode_header cs (chat_session.read_msg_ s1) = (m, false) ->
    handler_step cs s (set_read_msg m s1)
| hs_header_failed s rest bytes :
    reads (chat_session.socket_ s) = ReadHeader :: rest ->
    handler_step cs s (read_completed 0 (take chat_message.header_length bytes) s)
| hs_named s rest bytes :
    reads (chat_session.socket_ s) = ReadBody :: rest ->
    chat_session.state_ s = chat_session.NOT_AUTHED ->
    let n := Z.to_nat (chat_message.body_length (chat_session.read_msg_ s)) in
    let s1 := read_completed chat_message.header_length (take n bytes) s in
    handler_step cs s
      (chat_session.do_read_header
         (chat_session.mk (chat_session.socket_ s1) chat_session.AUTHED
            (body_string s1) (chat_session.read_msg_ s1)
            (chat_session.write_msgs_ s1)))
| hs_relayed s rest bytes :
    reads (chat_session.socket_ s) = ReadBody :: rest ->
    chat_session.state_ s <> chat_session.NOT_AUTHED ->
    let n := Z.to_nat (chat_message.body_length (chat_session.read_msg_ s)) in
    handler_step cs s
      (chat_session.do_read_header
         (read_completed chat_message.header_length (take n bytes) s))
| hs_body_failed s rest bytes :
    reads (chat_session.socket_ s) = ReadBody :: rest ->
    let n := Z.to_nat (chat_message.body_length (chat_session.read_msg_ s)) in
    handler_step cs s (read_completed chat_message.header_length (take n bytes) s)
| hs_written s buf rest :
    writes (chat_session.socket_ s) = buf :: rest ->
    let k := chat_session.socket_ s in
    let s1 := chat_session.mk (mk_socket (reads k) rest (written k ++ [buf]))
                (chat_session.state_ s) (chat_session.nickname_ s)
                (chat_session.read_msg_ s) (tail (chat_session.write_msgs_ s)) in
    handler_step cs s (if bool_decide (chat_session.write_msgs_ s1 = []) then s1
                       else chat_session.do_write s1)
| hs_write_failed s buf rest :
    writes (chat_session.socket_ s) = buf :: rest ->
    handler_step cs s (chat_session.set_socket
                         (fun k => mk_socket (reads k) rest (written k)) s).

(** The session after the handler of a write that completed without
    error, when [m] was the front of the queue and [rest] the frames
    behind it: [m] is popped and recorded as written, and the next frame,
    if there is one, is being written. *)
Definition write_popped (s : chat_session.t) (m : chat_message.t)
    (rest : list chat_message.t) : chat_session.t :=
  chat_session.mk
    (mk_socket (reads (chat_session.socket_ s))
       (match rest with [] => [] | m' :: _ => [chat_message.frame m'] end)
       (written (chat_session.socket_ s) ++ [chat_message.frame m]))
    (chat_session.state_ s) (chat_session.nickname_ s)
    (chat_session.read_msg_ s) rest.

(** The session after the handler of a write that completed with an
    error: the write is no longer outstanding and the queue is as it was. *)
Definition write_dropped (s : chat_session.t) : chat_session.t :=
  chat_session.mk
    (mk_socket (reads (chat_session.socket_ s)) [] (written (chat_session.socket_ s)))
    (chat_session.state_ s) (chat_session.nickname_ s)
    (chat_session.read_msg_ s) (chat_session.write_msgs_ s).

(** * Properties *)

(** ** The frame codec *)

Section Bits.

Lemma byte_val_range c : 0 <= Z.of_N (N_of_ascii c) < 256.
Proof. pose proof (N_ascii_bounded c). lia. Qed.

Lemma int_to_char_val z : 0 <= z < 256 -> Z.of_N (N_of_ascii (int_to_char z)) = z.
Proof.
  intros Hz. unfold int_to_char. rewrite Z.mod_small by lia.
  rewrite N_ascii_embedding by lia. lia.
Qed.

Lemma wrap_int_mod z : wrap_int z mod 2 ^ 32 = z mod 2 ^ 32.
Proof.
  unfold wrap_int. change (2 ^ 32) with 4294967296. change (2 ^ 31) with 2147483648.
  Z.div_mod_to_equations. lia.
Qed.

Lemma lor_mod_pow2 a b n : 0 <= n ->
  Z.lor a b mod 2 ^ n = Z.lor (a mod 2 ^ n) (b mod 2 ^ n).
Proof.
  intros Hn. rewrite <- !Z.land_ones by done. apply Z.land_lor_distr_l.
Qed.

Lemma or_int_mod a b :
  or_int a b mod 2 ^ 32 = Z.lor (a mod 2 ^ 32) (b mod 2 ^ 32).
Proof. unfold or_int. rewrite wrap_int_mod. by apply lor_mod_pow2. Qed.

Lemma to_size_t_wrap_int y :
  to_size_t (wrap_int y) =
  if y mod 2 ^ 32 <? 2 ^ 31 then y mod 2 ^ 32 else y mod 2 ^ 32 + 2 ^ 64 - 2 ^ 32.
Proof.
  unfold to_size_t, wrap_int.
  change (2 ^ 32) with 4294967296. change (2 ^ 31) with 2147483648.
  change (2 ^ 64) with 18446744073709551616.
  destruct (Z.ltb_spec (y mod 4294967296) 2147483648);
    Z.div_mod_to_equations; lia.
Qed.

Lemma land_high_low u l k :
  0 <= k -> 0 <= l < 2 ^ k -> Z.land (u * 2 ^ k) l = 0.
Proof.
  intros Hk Hl. apply Z.bits_inj'. intros n Hn.
  rewrite Z.land_spec, Z.bits_0, <- Z.shiftl_mul_pow2 by done.
  destruct (Z.lt_ge_cases n k).
  - by rewrite Z.shiftl_spec_low.
  - rewrite <- (Z.mod_small l (2 ^ k)) by done.
    rewrite Z.mod_pow2_bits_high by lia. apply andb_false_r.
Qed.

Lemma lor_high_low u l k :
  0 <= k -> 0 <= l < 2 ^ k -> Z.lor (u * 2 ^ k) l = u * 2 ^ k + l.
Proof. intros. symmetry. apply Z.add_nocarry_lor. by apply land_high_low. Qed.

Lemma lor_ge_l a b : 0 <= b -> a <= Z.lor a b.
Proof.
  intros Hb. pose proof (Z.add_lor_land a b). pose proof (Z.sub_land_same_l b a).
  assert (0 <= Z.land b (Z.lnot a)) by (apply Z.land_nonneg; auto).
  rewrite (Z.land_comm b a) in *. lia.
Qed.

Lemma lor_ge_r a b : 0 <= a -> b <= Z.lor a b.
Proof. intros. rewrite Z.lor_comm. by apply lor_ge_l. Qed.

Lemma header_value_mod cs b0 b1 b2 b3 rest :
  let c x := char_to_int cs x in
  let m := Z.lor (Z.lor (Z.lor ((c b0 * 2 ^ 24) mod 2 ^ 32) ((c b1 * 2 ^ 16) mod 2 ^ 32))
                        ((c b2 * 2 ^ 8) mod 2 ^ 32))
                 (c b3 mod 2 ^ 32) in
  chat_message.header_value cs (b0 :: b1 :: b2 :: b3 :: rest) =
  if m <? 2 ^ 31 then m else m + 2 ^ 64 - 2 ^ 32.
Proof.
  intros c m. unfold chat_message.header_value, chat_message.at_. cbn [nth].
  fold (c b0) (c b1) (c b2) (c b3).
  unfold or_int at 1. rewrite to_size_t_wrap_int.
  rewrite lor_mod_pow2, !or_int_mod by done.
  unfold shl_int. rewrite !wrap_int_mod, !Z.shiftl_mul_pow2 by done.
  reflexivity.
Qed.

Lemma header_value_unsigned b0 b1 b2 b3 rest :
  chat_message.header_value UnsignedChar (b0 :: b1 :: b2 :: b3 :: rest) =
  if be32 b0 b1 b2 b3 <? 2 ^ 31 then be32 b0 b1 b2 b3
  else be32 b0 b1 b2 b3 + 2 ^ 64 - 2 ^ 32.
Proof.
  rewrite header_value_mod. cbv zeta. unfold char_to_int, be32.
  pose proof (byte_val_range b0). pose proof (byte_val_range b1).
  pose proof (byte_val_range b2). pose proof (byte_val_range b3).
  set (u0 := Z.of_N (N_of_ascii b0)) in *. set (u1 := Z.of_N (N_of_ascii b1)) in *.
  set (u2 := Z.of_N (N_of_ascii b2)) in *. set (u3 := Z.of_N (N_of_ascii b3)) in *.
  rewrite !Z.mod_small by lia.
  rewrite (lor_high_low u0 (u1 * 2 ^ 16) 24) by lia.
  replace (u0 * 2 ^ 24 + u1 * 2 ^ 16) with ((u0 * 2 ^ 8 + u1) * 2 ^ 16) by lia.
  rewrite (lor_high_low _ (u2 * 2 ^ 8) 16) by lia.
  replace ((u0 * 2 ^ 8 + u1) * 2 ^ 16 + u2 * 2 ^ 8)
    with (((u0 * 2 ^ 8 + u1) * 2 ^ 8 + u2) * 2 ^ 8) by lia.
  rewrite (lor_high_low _ u3 8) by lia.
  replace (((u0 * 2 ^ 8 + u1) * 2 ^ 8 + u2) * 2 ^ 8 + u3)
    with (u0 * 2 ^ 24 + u1 * 2 ^ 16 + u2 * 2 ^ 8 + u3) by lia.
  reflexivity.
Qed.

(** With a signed [char] and every byte below 0x80 the promotion is the
    same as with an unsigned one. *)
Lemma header_value_signed_low b0 b1 b2 b3 rest :
  Z.of_N (N_of_ascii b0) < 128 -> Z.of_N (N_of_ascii b1) < 128 ->
  Z.of_N (N_of_ascii b2) < 128 -> Z.of_N (N_of_ascii b3) < 128 ->
  chat_message.header_value SignedChar (b0 :: b1 :: b2 :: b3 :: rest) =
  be32 b0 b1 b2 b3.
Proof.
  intros H0 H1 H2 H3.
  assert (chat_message.header_value SignedChar (b0 :: b1 :: b2 :: b3 :: rest) =
          chat_message.header_value UnsignedChar (b0 :: b1 :: b2 :: b3 :: rest)) as ->.
  { unfold chat_message.header_value, chat_message.at_, char_to_int. cbn [nth].
    by rewrite !(proj2 (Z.leb_gt _ _)) by lia. }
  rewrite header_value_unsigned. unfold be32 in *.
  pose proof (byte_val_range b0). pose proof (byte_val_range b1).
  pose proof (byte_val_range b2). pose proof (byte_val_range b3).
  rewrite (proj2 (Z.ltb_lt _ _)); [done | lia].
Qed.

(** With a signed [char], one byte of 0x80 or more makes the [int] negative
    and the [std::size_t] huge. *)
Lemma header_value_signed_high b0 b1 b2 b3 rest :
  128 <= Z.of_N (N_of_ascii b0) \/ 128 <= Z.of_N (N_of_ascii b1) \/
  128 <= Z.of_N (N_of_ascii b2) \/ 128 <= Z.of_N (N_of_ascii b3) ->
  2 ^ 64 - 2 ^ 31 <= chat_message.header_value SignedChar (b0 :: b1 :: b2 :: b3 :: rest).
Proof.
  intros Hhigh. rewrite header_value_mod. cbv zeta.
  set (t0 := (char_to_int SignedChar b0 * 2 ^ 24) mod 2 ^ 32).
  set (t1 := (char_to_int SignedChar b1 * 2 ^ 16) mod 2 ^ 32).
  set (t2 := (char_to_int SignedChar b2 * 2 ^ 8) mod 2 ^ 32).
  set (t3 := char_to_int SignedChar b3 mod 2 ^ 32).
  assert (0 <= t0 < 2 ^ 32) by (apply Z.mod_pos_bound; lia).
  assert (0 <= t1 < 2 ^ 32) by (apply Z.mod_pos_bound; lia).
  assert (0 <= t2 < 2 ^ 32) by (apply Z.mod_pos_bound; lia).
  assert (0 <= t3 < 2 ^ 32) by (apply Z.mod_pos_bound; lia).
  assert (0 <= Z.lor t0 t1) by (apply Z.lor_nonneg; lia).
  assert (0 <= Z.lor (Z.lor t0 t1) t2) by (apply Z.lor_nonneg; lia).
  pose proof (lor_ge_l t0 t1). pose proof (lor_ge_r t0 t1).
  pose proof (lor_ge_l (Z.lor t0 t1) t2). pose proof (lor_ge_r (Z.lor t0 t1) t2).
  pose proof (lor_ge_l (Z.lor (Z.lor t0 t1) t2) t3).
  pose proof (lor_ge_r (Z.lor (Z.lor t0 t1) t2) t3).
  assert (Z.lor (Z.lor (Z.lor t0 t1) t2) t3 < 2 ^ 32).
  { unfold t0, t1, t2, t3. rewrite <- !lor_mod_pow2 by done.
    apply Z.mod_pos_bound. lia. }
  assert (2 ^ 31 <= t0 \/ 2 ^ 31 <= t1 \/ 2 ^ 31 <= t2 \/ 2 ^ 31 <= t3) as Ht.
  { pose proof (byte_val_range b0). pose proof (byte_val_range b1).
    pose proof (byte_val_range b2). pose proof (byte_val_range b3).
    unfold t0, t1, t2, t3, char_to_int.
    change (2 ^ 32) with 4294967296. change (2 ^ 31) with 2147483648.
    change (2 ^ 24) with 16777216. change (2 ^ 16) with 65536. change (2 ^ 8) with 256.
    destruct Hhigh as [Hh | [Hh | [Hh | Hh]]];
      [left | right; left | right; right; left | right; right; right];
      rewrite (proj2 (Z.leb_le _ _) Hh); Z.div_mod_to_equations; lia. }
  destruct (Z.ltb_spec (Z.lor (Z.lor (Z.lor t0 t1) t2) t3) (2 ^ 31)); lia.
Qed.

End Bits.

Section Codec.

Import chat_message.

Lemma decode_header_unsigned b0 b1 b2 b3 rest n :
  decode_header UnsignedChar (mk (b0 :: b1 :: b2 :: b3 :: rest) n) =
  if be32 b0 b1 b2 b3 >? max_body_length
  then (mk (b0 :: b1 :: b2 :: b3 :: rest) 0, false)
  else (mk (b0 :: b1 :: b2 :: b3 :: rest) (be32 b0 b1 b2 b3), true).
Proof.
  unfold decode_header. cbn [data_]. rewrite header_value_unsigned.
  unfold max_body_length.
  assert (0 <= be32 b0 b1 b2 b3 < 2 ^ 32).
  { unfold be32. pose proof (byte_val_range b0). pose proof (byte_val_range b1).
    pose proof (byte_val_range b2). pose proof (byte_val_range b3). lia. }
  destruct (Z.ltb_spec (be32 b0 b1 b2 b3) (2 ^ 31));
    destruct (Z.gtb_spec (be32 b0 b1 b2 b3) 512); try lia; try reflexivity.
  rewrite (proj2 (Z.gtb_gt _ _)) by lia. reflexivity.
Qed.

Lemma decode_header_signed b0 b1 b2 b3 rest n :
  decode_header SignedChar (mk (b0 :: b1 :: b2 :: b3 :: rest) n) =
  if (be32 b0 b1 b2 b3 >? max_body_length)
     || (128 <=? Z.of_N (N_of_ascii b0)) || (128 <=? Z.of_N (N_of_ascii b1))
     || (128 <=? Z.of_N (N_of_ascii b2)) || (128 <=? Z.of_N (N_of_ascii b3))
  then (mk (b0 :: b1 :: b2 :: b3 :: rest) 0, false)
  else (mk (b0 :: b1 :: b2 :: b3 :: rest) (be32 b0 b1 b2 b3), true).
Proof.
  unfold decode_header. cbn [data_]. unfold max_body_length.
  destruct (Z.leb_spec 128 (Z.of_N (N_of_ascii b0))) as [H0|H0];
  [|destruct (Z.leb_spec 128 (Z.of_N (N_of_ascii b1))) as [H1|H1];
    [|destruct (Z.leb_spec 128 (Z.of_N (N_of_ascii b2))) as [H2|H2];
      [|destruct (Z.leb_spec 128 (Z.of_N (N_of_ascii b3))) as [H3|H3]]]];
  rewrite ?orb_true_r, ?orb_false_r.
  1-4: pose proof (header_value_signed_high b0 b1 b2 b3 rest);
       rewrite (proj2 (Z.gtb_gt _ _)) by lia; reflexivity.
  rewrite header_value_signed_low by lia. reflexivity.
Qed.

(** Both promotions refuse a header that declares more than 512 bytes. *)
Lemma decode_header_refuses_oversized cs b0 b1 b2 b3 rest n :
  be32 b0 b1 b2 b3 > max_body_length ->
  decode_header cs (mk (b0 :: b1 :: b2 :: b3 :: rest) n) =
  (mk (b0 :: b1 :: b2 :: b3 :: rest) 0, false).
Proof.
  intros Hbig. apply Z.gtb_gt in Hbig.
  destruct cs; [rewrite decode_header_signed | rewrite decode_header_unsigned];
    by rewrite Hbig.
Qed.

Lemma encode_header_data m :
  data_ (encode_header m) =
  int_to_char (Z.land (Z.shiftr (body_length_ m) 24) 255)
  :: int_to_char (Z.land (Z.shiftr (body_length_ m) 16) 255)
  :: int_to_char (Z.land (Z.shiftr (body_length_ m) 8) 255)
  :: int_to_char (Z.land (body_length_ m) 255)
  :: drop 4 (data_ m).
Proof. reflexivity. Qed.

Lemma low_byte_val z : Z.of_N (N_of_ascii (int_to_char (Z.land z 255))) = z mod 256.
Proof.
  change 255 with (Z.ones 8). rewrite Z.land_ones by done. change (2 ^ 8) with 256.
  apply int_to_char_val. apply Z.mod_pos_bound. lia.
Qed.

Lemma be32_encode n :
  0 <= n < 2 ^ 32 ->
  be32 (int_to_char (Z.land (Z.shiftr n 24) 255))
       (int_to_char (Z.land (Z.shiftr n 16) 255))
       (int_to_char (Z.land (Z.shiftr n 8) 255))
       (int_to_char (Z.land n 255)) = n.
Proof.
  intros Hn. unfold be32. rewrite !low_byte_val, !Z.shiftr_div_pow2 by done.
  change (2 ^ 32) with 4294967296 in Hn.
  change (2 ^ 24) with 16777216. change (2 ^ 16) with 65536. change (2 ^ 8) with 256.
  Z.div_mod_to_equations. lia.
Qed.

Lemma of_string_body_length msg :
  body_length_ (of_string msg) = Z.min (Z.of_nat (String.length msg)) max_body_length.
Proof.
  unfold of_string, encode_header, max_body_length. cbn [body_length_].
  destruct (Z.gtb_spec (Z.of_nat (String.length msg)) 512); lia.
Qed.

Lemma of_string_encoded msg :
  exists d, of_string msg = encode_header (mk d (body_length_ (of_string msg))).
Proof. unfold of_string. eexists. reflexivity. Qed.

(** With an unsigned [char], [decode_header] accepts what [encode_header]
    wrote for any string, and leaves the declared length as it was. *)
Lemma roundtrip_unsigned msg :
  decode_header UnsignedChar (of_string msg) = (of_string msg, true).
Proof.
  destruct (of_string_encoded msg) as [d Hd].
  pose proof (of_string_body_length msg) as Hlen. unfold max_body_length in Hlen.
  set (n := body_length_ (of_string msg)) in *. rewrite Hd.
  assert (0 <= n <= 512) by lia.
  assert (encode_header (mk d n) = mk (data_ (encode_header (mk d n))) n) as -> by done.
  rewrite encode_header_data. cbn [body_length_ data_].
  rewrite decode_header_unsigned, be32_encode by lia.
  unfold max_body_length. by rewrite Z.gtb_ltb, (proj2 (Z.ltb_ge _ _)) by lia.
Qed.

(** With a signed [char], the header [encode_header] wrote is refused as
    soon as its last byte is 0x80 or more. *)
Lemma roundtrip_signed msg :
  decode_header SignedChar (of_string msg) =
  if 128 <=? body_length_ (of_string msg) mod 256
  then (mk (data_ (of_string msg)) 0, false)
  else (of_string msg, true).
Proof.
  destruct (of_string_encoded msg) as [d Hd].
  pose proof (of_string_body_length msg) as Hlen. unfold max_body_length in Hlen.
  set (n := body_length_ (of_string msg)) in *. rewrite Hd.
  assert (0 <= n <= 512) by lia.
  assert (encode_header (mk d n) = mk (data_ (encode_header (mk d n))) n) as -> by done.
  rewrite encode_header_data. cbn [body_length_ data_].
  rewrite decode_header_signed, be32_encode, !low_byte_val, !Z.shiftr_div_pow2 by lia.
  unfold max_body_length. rewrite Z.gtb_ltb, (proj2 (Z.ltb_ge _ _)) by lia.
  change (2 ^ 24) with 16777216. change (2 ^ 16) with 65536. change (2 ^ 8) with 256.
  rewrite (proj2 (Z.leb_gt 128 ((n / 16777216) mod 256))) by (Z.div_mod_to_equations; lia).
  rewrite (proj2 (Z.leb_gt 128 ((n / 65536) mod 256))) by (Z.div_mod_to_equations; lia).
  rewrite (proj2 (Z.leb_gt 128 ((n / 256) mod 256))) by (Z.div_mod_to_equations; lia).
  cbn [orb]. reflexivity.
Qed.


Lemma length_list_ascii_of_string msg :
  List.length (list_ascii_of_string msg) = String.length msg.
Proof. induction msg as [|c msg IH]; [done | cbn; by rewrite IH]. Qed.

Lemma of_string_data_body msg :
  let n := Z.to_nat (body_length_ (of_string msg)) in
  drop header_length (data_ (of_string msg)) =
  take n (list_ascii_of_string msg) ++ replicate (512 - n) Ascii.zero.
Proof.
  intros n. pose proof (of_string_body_length msg) as Hlen.
  unfold max_body_length in Hlen.
  assert (n = Nat.min (String.length msg) 512) as Hn by (unfold n; lia).
  unfold header_length, of_string.
  rewrite encode_header_data. cbn [body_length_ data_ drop].
  unfold store, fresh_data, data_size, header_length, max_body_length.
  rewrite drop_app_length'; [|by rewrite length_take, length_replicate; lia].
  replace (Z.to_nat (if Z.of_nat (String.length msg) >? 512 then 512
                     else Z.of_nat (String.length msg))) with n
    by (rewrite Hn; destruct (Z.gtb_spec (Z.of_nat (String.length msg)) 512); lia).
  rewrite drop_replicate, length_take, length_list_ascii_of_string.
  change (Z.to_nat 512) with 512%nat. rewrite drop_0. do 2 f_equal. lia.
Qed.

Lemma of_string_body msg :
  body (of_string msg) =
  take (Z.to_nat (body_length_ (of_string msg))) (list_ascii_of_string msg).
Proof.
  pose proof (of_string_body_length msg) as Hlen. unfold max_body_length in Hlen.
  unfold body. rewrite of_string_data_body. cbv zeta.
  rewrite take_app_length'; [done|].
  rewrite length_take, length_list_ascii_of_string. lia.
Qed.

Lemma of_string_header_length msg :
  List.length (header (of_string msg)) = header_length.
Proof.
  destruct (of_string_encoded msg) as [d ->]. unfold header.
  by rewrite encode_header_data.
Qed.

Lemma of_string_data_length msg : List.length (data_ (of_string msg)) = data_size.
Proof.
  pose proof (of_string_body_length msg) as Hlen. unfold max_body_length in Hlen.
  rewrite <- (take_drop header_length (data_ (of_string msg))), length_app.
  rewrite of_string_data_body. cbv zeta.
  fold (header (of_string msg)). rewrite of_string_header_length.
  rewrite length_app, !length_take, length_replicate, length_list_ascii_of_string.
  unfold header_length, data_size, header_length, max_body_length. lia.
Qed.

Lemma of_string_frame msg :
  frame (of_string msg) = header (of_string msg) ++ body (of_string msg).
Proof.
  pose proof (of_string_body_length msg) as Hlen. unfold max_body_length in Hlen.
  unfold frame, header, body, length.
  rewrite <- (take_drop header_length (data_ (of_string msg))) at 1.
  pose proof (of_string_header_length msg) as Hh. unfold header in Hh.
  rewrite take_app_ge by lia. rewrite Hh. do 2 f_equal. lia.
Qed.

End Codec.

(** What the spec's round trip and acceptance properties become under each
    promotion is settled by [roundtrip_unsigned], [roundtrip_signed],
    [decode_header_unsigned], [decode_header_signed] and
    [decode_header_refuses_oversized] above.  The two statements below
    evaluate the code where plain [char] is signed (the x86 and x86-64
    ABIs of GCC, Clang and MSVC). *)

(** C1.  A body of 128 bytes is a legal payload; [encode_header] writes
    the header 00 00 00 80 for it; [decode_header], reading that header
    back with a signed [char], sign-extends the last byte, obtains a
    length above 512, resets [body_length_] to 0 and returns [false]. *)
Theorem roundtrip_fails_at_128_bytes :
  String.length (payload 128) = 128%nat /\
  chat_message.body_length_ (chat_message.of_string (payload 128)) = 128 /\
  chat_message.header (chat_message.of_string (payload 128)) =
    ["000"; "000"; "000"; "128"]%char /\
  chat_message.header_value SignedChar
    (chat_message.data_ (chat_message.of_string (payload 128))) = 2 ^ 64 - 128 /\
  chat_message.decode_header SignedChar (chat_message.of_string (payload 128)) =
    (chat_message.mk (chat_message.data_ (chat_message.of_string (payload 128))) 0,
     false).
Proof. repeat split; vm_compute; reflexivity. Qed.

(** C2.  The header 00 00 00 80 declares 128 bytes, which is at most 512;
    with a signed [char], [decode_header] does not return 128 for it but
    refuses it. *)
Theorem decode_header_refuses_declared_128 :
  let m := chat_message.mk
             (chat_message.store 0 ["000"; "000"; "000"; "128"]%char
                                 chat_message.fresh_data) 0 in
  be32 "000" "000" "000" "128" = 128 /\
  128 <= chat_message.max_body_length /\
  chat_message.decode_header SignedChar m = (m, false).
Proof. repeat split; vm_compute; congruence. Qed.

(** ** One session *)

Section Session.

Import chat_session.

Implicit Types (s : t) (text msg : string) (texts : list string).

Lemma deliver_unfold text s :
  deliver text s =
  mk (mk_socket (reads (socket_ s))
        (if bool_decide (write_msgs_ s = [])
         then writes (socket_ s) ++ [chat_message.frame (chat_message.of_string text)]
         else writes (socket_ s))
        (written (socket_ s)))
     (state_ s) (nickname_ s) (read_msg_ s)
     (write_msgs_ s ++ [chat_message.of_string text]).
Proof.
  destruct s as [[rs ws wr] st nick rm q]. unfold deliver, do_write, set_socket.
  cbn [write_msgs_ socket_ state_ nickname_ read_msg_ reads writes written].
  destruct q as [|m q]; reflexivity.
Qed.

Lemma deliver_write_msgs text s :
  write_msgs_ (deliver text s) = write_msgs_ s ++ [chat_message.of_string text].
Proof. by rewrite deliver_unfold. Qed.

Lemma deliver_nickname text s : nickname_ (deliver text s) = nickname_ s.
Proof. by rewrite deliver_unfold. Qed.

Lemma deliver_state text s : state_ (deliver text s) = state_ s.
Proof. by rewrite deliver_unfold. Qed.

Lemma deliver_reads text s : reads (socket_ (deliver text s)) = reads (socket_ s).
Proof. by rewrite deliver_unfold. Qed.

Lemma deliver_written text s : written (socket_ (deliver text s)) = written (socket_ s).
Proof. by rewrite deliver_unfold. Qed.

Lemma deliver_outbound text s :
  outbound (deliver text s) =
  outbound s ++ [chat_message.frame (chat_message.of_string text)].
Proof.
  unfold outbound. rewrite deliver_written, deliver_write_msgs, map_app.
  by rewrite app_assoc.
Qed.

Lemma deliver_list_app texts1 texts2 s :
  deliver_list (texts1 ++ texts2) s = deliver_list texts2 (deliver_list texts1 s).
Proof. apply foldl_app. Qed.

Lemma deliver_list_snoc texts text s :
  deliver_list (texts ++ [text]) s = deliver text (deliver_list texts s).
Proof. apply deliver_list_app. Qed.

Lemma deliver_list_write_msgs texts s :
  write_msgs_ (deliver_list texts s) =
  write_msgs_ s ++ map chat_message.of_string texts.
Proof.
  revert s. induction texts as [|text texts IH]; intros s; cbn.
  - by rewrite app_nil_r.
  - fold (deliver_list texts (deliver text s)).
    by rewrite IH, deliver_write_msgs, <- app_assoc.
Qed.

Lemma deliver_list_nickname texts s : nickname_ (deliver_list texts s) = nickname_ s.
Proof.
  revert s. induction texts as [|text texts IH]; intros s; [done|].
  cbn. fold (deliver_list texts (deliver text s)). by rewrite IH, deliver_nickname.
Qed.

Lemma deliver_list_state texts s : state_ (deliver_list texts s) = state_ s.
Proof.
  revert s. induction texts as [|text texts IH]; intros s; [done|].
  cbn. fold (deliver_list texts (deliver text s)). by rewrite IH, deliver_state.
Qed.

Lemma deliver_list_reads texts s :
  reads (socket_ (deliver_list texts s)) = reads (socket_ s).
Proof.
  revert s. induction texts as [|text texts IH]; intros s; [done|].
  cbn. fold (deliver_list texts (deliver text s)). by rewrite IH, deliver_reads.
Qed.

Lemma deliver_list_outbound texts s :
  outbound (deliver_list texts s) =
  outbound s ++ map (fun text => chat_message.frame (chat_message.of_string text)) texts.
Proof.
  revert s. induction texts as [|text texts IH]; intros s; cbn.
  - by rewrite app_nil_r.
  - fold (deliver_list texts (deliver text s)).
    by rewrite IH, deliver_outbound, <- app_assoc.
Qed.

(** Starting a read and enqueuing a frame touch different fields. *)
Lemma do_read_header_deliver text s :
  do_read_header (deliver text s) = deliver text (do_read_header s).
Proof.
  destruct s as [[rs ws wr] st nick rm q].
  destruct q as [|m q]; reflexivity.
Qed.

Lemma do_read_header_deliver_list texts s :
  do_read_header (deliver_list texts s) = deliver_list texts (do_read_header s).
Proof.
  revert s. induction texts as [|text texts IH]; intros s; [done|].
  cbn. fold (deliver_list texts (deliver text s)).
  fold (deliver_list texts (deliver text (do_read_header s))).
  by rewrite IH, do_read_header_deliver.
Qed.

Lemma rtc_deliver_list texts s : rtc session_step s (deliver_list texts s).
Proof.
  revert s. induction texts as [|text texts IH]; intros s; [done|].
  cbn. eapply rtc_l; [apply ss_deliver | apply IH].
Qed.

End Session.

(** ** The room *)

Section Room.

Implicit Types (w : server) (p q x : nat) (text msg : string) (texts : list string).

Local Abbreviation participants w := (chat_room.participants_ (room_ w)).
Local Abbreviation recent_msgs w := (chat_room.recent_msgs_ (room_ w)).

Lemma participant_deliver_lookup p text w q :
  sessions (participant_deliver p text w) !! q =
  if decide (p = q) then chat_session.deliver text <$> sessions w !! q
  else sessions w !! q.
Proof.
  unfold participant_deliver. cbn [sessions]. rewrite lookup_alter.
  case_decide; by subst.
Qed.

Lemma participant_deliver_room p text w : room_ (participant_deliver p text w) = room_ w.
Proof. done. Qed.

(** The loop of [deliver] and [system_prompt] over a list of distinct
    participants. *)
Lemma deliver_loop_room x text (l : list nat) w :
  room_ (foldl (fun w' participant =>
                  if decide (x ≠ participant)
                  then participant_deliver participant text w' else w') w l) = room_ w.
Proof.
  revert w. induction l as [|a l IH]; intros w; [done|].
  cbn [foldl]. rewrite IH. by case_decide.
Qed.

Lemma deliver_loop_lookup x text (l : list nat) w q :
  NoDup l ->
  sessions (foldl (fun w' participant =>
                     if decide (x ≠ participant)
                     then participant_deliver participant text w' else w') w l) !! q =
  if decide (q ∈ l /\ x ≠ q) then chat_session.deliver text <$> sessions w !! q
  else sessions w !! q.
Proof.
  intros Hnd. revert w. induction Hnd as [|a l Ha Hnd IH]; intros w.
  - cbn. case_decide as H; [|done]. destruct H as [H _]. by apply elem_of_nil in H.
  - cbn [foldl]. rewrite IH.
    destruct (decide (x ≠ a)) as [Hxa|Hxa].
    + rewrite participant_deliver_lookup.
      destruct (decide (a = q)) as [->|Haq].
      * rewrite decide_False by (intros [? _]; done).
        rewrite decide_True; [done|]. split; [left | done].
      * destruct (decide (q ∈ l /\ x ≠ q)) as [[Hq Hx]|Hn].
        -- rewrite decide_True; [done|]. split; [by right | done].
        -- rewrite decide_False; [done|]. intros [Hq Hx].
           apply elem_of_cons in Hq as [->|Hq]; [done | by apply Hn].
    + assert (x = a) as -> by (destruct (decide (x = a)); [done | by destruct Hxa]).
      destruct (decide (q ∈ l /\ a ≠ q)) as [[Hq Hx]|Hn].
      * rewrite decide_True; [done|]. split; [by right | done].
      * rewrite decide_False; [done|]. intros [Hq Hx].
        apply elem_of_cons in Hq as [->|Hq]; [done | by apply Hn].
Qed.

Lemma deliver_to_others_room x text w : room_ (deliver_to_others x text w) = room_ w.
Proof. apply deliver_loop_room. Qed.

Lemma deliver_to_others_lookup x text w q :
  sessions (deliver_to_others x text w) !! q =
  if decide (q ∈ participants w /\ x ≠ q)
  then chat_session.deliver text <$> sessions w !! q
  else sessions w !! q.
Proof.
  unfold deliver_to_others. rewrite deliver_loop_lookup by apply NoDup_elements.
  destruct (decide (q ∈ participants w /\ x ≠ q)) as [[Hq Hx]|Hn].
  - rewrite decide_True; [done|]. split; [by apply elem_of_elements | done].
  - rewrite decide_False; [done|]. intros [Hq Hx]. apply Hn.
    split; [by apply elem_of_elements | done].
Qed.

Lemma replay_room p (l : list string) w :
  room_ (foldl (fun w' msg => participant_deliver p msg w') w l) = room_ w.
Proof. revert w. induction l as [|a l IH]; intros w; [done|]. cbn [foldl]. by rewrite IH. Qed.

Lemma replay_lookup p (l : list string) w q :
  sessions (foldl (fun w' msg => participant_deliver p msg w') w l) !! q =
  if decide (p = q) then deliver_list l <$> sessions w !! q else sessions w !! q.
Proof.
  revert w. induction l as [|a l IH]; intros w; cbn [foldl].
  - case_decide; [|done]. by destruct (sessions w !! q).
  - rewrite IH, participant_deliver_lookup. case_decide; [|done].
    by destruct (sessions w !! q).
Qed.

Lemma participant_nickname_deliver p q text w :
  participant_nickname p (participant_deliver q text w) = participant_nickname p w.
Proof.
  unfold participant_nickname. rewrite participant_deliver_lookup.
  case_decide; [|done]. destruct (sessions w !! p) as [s|]; [|done].
  cbn. apply deliver_nickname.
Qed.

Lemma participant_nickname_sessions p w w' :
  chat_session.nickname_ <$> sessions w' !! p = chat_session.nickname_ <$> sessions w !! p ->
  participant_nickname p w' = participant_nickname p w.
Proof.
  unfold participant_nickname, chat_session.nickname. intros H.
  destruct (sessions w' !! p), (sessions w !! p); by simplify_eq/=.
Qed.

Lemma participant_nickname_deliver_to_others p x text w :
  participant_nickname p (deliver_to_others x text w) = participant_nickname p w.
Proof.
  apply participant_nickname_sessions. rewrite deliver_to_others_lookup.
  case_decide; [|done]. destruct (sessions w !! p); [|done].
  cbn. by rewrite deliver_nickname.
Qed.

Lemma participant_nickname_replay p q (l : list string) w :
  participant_nickname p (foldl (fun w' msg => participant_deliver q msg w') w l) =
  participant_nickname p w.
Proof.
  apply participant_nickname_sessions. rewrite replay_lookup.
  case_decide; [|done]. destruct (sessions w !! p); [|done].
  cbn. by rewrite deliver_list_nickname.
Qed.

(** *** system_prompt *)

Lemma system_prompt_lookup msg x w q :
  sessions (system_prompt msg x w) !! q =
  if decide (q ∈ participants w /\ x ≠ q)
  then chat_session.deliver (system_prefix +:+ msg) <$> sessions w !! q
  else sessions w !! q.
Proof. apply deliver_to_others_lookup. Qed.

(** *** leave *)

Lemma leave_sessions p w : sessions (leave p w) = sessions w.
Proof. done. Qed.

Lemma leave_participants p w : participants (leave p w) = participants w ∖ {[p]}.
Proof. done. Qed.

(** *** deliver *)

Lemma room_deliver_room msg sender w :
  room_ (room_deliver msg sender w) =
  chat_room.mk (chat_room.room_name_ (room_ w)) (participants w)
    (pop_while_over (recent_msgs w ++ [participant_nickname sender w +:+ says +:+ msg])).
Proof. unfold room_deliver. by rewrite deliver_to_others_room. Qed.

Lemma room_deliver_lookup msg sender w q :
  sessions (room_deliver msg sender w) !! q =
  if decide (q ∈ participants w /\ sender ≠ q)
  then chat_session.deliver (participant_nickname sender w +:+ says +:+ msg)
         <$> sessions w !! q
  else sessions w !! q.
Proof. unfold room_deliver. by rewrite deliver_to_others_lookup. Qed.

Lemma pop_while_over_drop (l : list string) :
  pop_while_over l = drop (List.length l - chat_room.max_recent_msgs) l.
Proof.
  unfold chat_room.max_recent_msgs.
  induction l as [|a l IH]; [done|]. cbn [pop_while_over].
  unfold chat_room.max_recent_msgs.
  destruct (Nat.ltb_spec 100 (List.length (a :: l))) as [Hlt|Hge]; cbn [List.length] in *.
  - rewrite IH. replace (S (List.length l) - 100)%nat with (S (List.length l - 100)) by lia.
    done.
  - by replace (S (List.length l) - 100)%nat with 0%nat by lia.
Qed.

Lemma pop_while_over_length (l : list string) :
  (List.length (pop_while_over l) <= chat_room.max_recent_msgs)%nat.
Proof.
  rewrite pop_while_over_drop, length_drop. unfold chat_room.max_recent_msgs. lia.
Qed.

Lemma participant_nickname_room_deliver p msg sender w :
  participant_nickname p (room_deliver msg sender w) = participant_nickname p w.
Proof.
  apply participant_nickname_sessions. rewrite room_deliver_lookup.
  case_decide; [|done]. destruct (sessions w !! p); [|done].
  cbn. by rewrite deliver_nickname.
Qed.

Lemma room_deliver_all_snoc msgs msg sender w :
  room_deliver_all (msgs ++ [msg]) sender w =
  room_deliver msg sender (room_deliver_all msgs sender w).
Proof. unfold room_deliver_all. by rewrite foldl_app. Qed.

Lemma participant_nickname_room_deliver_all p msgs sender w :
  participant_nickname p (room_deliver_all msgs sender w) = participant_nickname p w.
Proof.
  induction msgs as [|msg msgs IH] using rev_ind; [done|].
  by rewrite room_deliver_all_snoc, participant_nickname_room_deliver.
Qed.

Lemma room_deliver_all_participants msgs sender w :
  participants (room_deliver_all msgs sender w) = participants w.
Proof.
  induction msgs as [|msg msgs IH] using rev_ind; [done|].
  by rewrite room_deliver_all_snoc, room_deliver_room.
Qed.

Lemma room_deliver_all_recent msgs sender w :
  let all := recent_msgs w ++
             map (fun msg => participant_nickname sender w +:+ says +:+ msg) msgs in
  (List.length (recent_msgs w) <= chat_room.max_recent_msgs)%nat ->
  recent_msgs (room_deliver_all msgs sender w) =
  drop (List.length all - chat_room.max_recent_msgs) all.
Proof.
  cbv zeta. unfold chat_room.max_recent_msgs. intros Hlen.
  induction msgs as [|msg msgs IH] using rev_ind.
  - cbn. rewrite app_nil_r. by replace (_ - _)%nat with 0%nat by lia.
  - rewrite room_deliver_all_snoc, room_deliver_room. cbn [chat_room.recent_msgs_].
    rewrite IH, participant_nickname_room_deliver_all, pop_while_over_drop.
    unfold chat_room.max_recent_msgs.
    rewrite map_app. cbn [map]. rewrite (app_assoc (recent_msgs w)).
    set (A := recent_msgs w ++ map _ msgs). set (t := _ +:+ _ +:+ msg).
    rewrite <- (drop_app_le A [t]) by lia.
    rewrite drop_drop, length_drop. f_equal. rewrite !length_app. cbn. lia.
Qed.


(** *** join *)

Lemma join_room p w :
  room_ (join p w) =
  chat_room.mk (chat_room.room_name_ (room_ w)) ({[p]} ∪ participants w) (recent_msgs w).
Proof.
  unfold join, system_prompt. rewrite deliver_to_others_room.
  case_bool_decide; [|rewrite participant_deliver_room]; by rewrite replay_room.
Qed.

Lemma join_replay_lookup p w q :
  let w1 := set_room (fun r => chat_room.mk (chat_room.room_name_ r)
                                 ({[p]} ∪ chat_room.participants_ r)
                                 (chat_room.recent_msgs_ r)) w in
  let w2 := foldl (fun w' msg => participant_deliver p msg w') w1 (recent_msgs w) in
  let w3 := if bool_decide (recent_msgs w = []) then w2
            else participant_deliver p history_delimiter w2 in
  sessions w3 !! q =
  if decide (p = q) then deliver_list (replayed (recent_msgs w)) <$> sessions w !! q
  else sessions w !! q.
Proof.
  cbv zeta. unfold replayed. case_bool_decide as Hrecent.
  - rewrite replay_lookup, app_nil_r. done.
  - rewrite participant_deliver_lookup, replay_lookup. cbn [sessions set_room].
    case_decide; [|done]. destruct (sessions w !! q); [|done]. cbn.
    by rewrite deliver_list_snoc.
Qed.

Lemma join_lookup p w q :
  sessions (join p w) !! q =
  if decide (p = q) then deliver_list (replayed (recent_msgs w)) <$> sessions w !! q
  else if decide (q ∈ participants w)
       then chat_session.deliver
              (system_prefix +:+ (participant_nickname p w +:+ joined_suffix))
              <$> sessions w !! q
       else sessions w !! q.
Proof.
  unfold join. cbv zeta. cbn [room_ set_room chat_room.recent_msgs_].
  rewrite system_prompt_lookup, join_replay_lookup.
  match goal with |- context [participant_nickname p ?w3] =>
    assert (participant_nickname p w3 = participant_nickname p w) as ->;
    [apply participant_nickname_sessions; rewrite join_replay_lookup;
     rewrite decide_True by done; destruct (sessions w !! p); [|done];
     cbn; by rewrite deliver_list_nickname |];
    assert (chat_room.participants_ (room_ w3) = {[p]} ∪ participants w) as ->;
    [case_bool_decide; [|rewrite participant_deliver_room]; by rewrite replay_room|]
  end.
  destruct (decide (p = q)) as [->|Hpq].
  - rewrite decide_False; [done|]. by intros [_ ?].
  - destruct (decide (q ∈ participants w)) as [Hq|Hq].
    + rewrite decide_True; [done|]. split; [set_solver | done].
    + rewrite decide_False; [done|]. intros [Hin _].
      apply elem_of_union in Hin as [Hin|Hin]; [|done].
      apply elem_of_singleton in Hin. by subst.
Qed.

End Room.

Section RoomClaims.

Local Abbreviation participants w := (chat_room.participants_ (room_ w)).
Local Abbreviation recent_msgs w := (chat_room.recent_msgs_ (room_ w)).

(** C4.  [chat_room::deliver] leaves the sender's session as it was, calls
    [deliver] with the formatted text exactly once on every other member
    (its queue grows by that one frame), and touches no session outside
    the membership set, which it does not change. *)
Theorem room_deliver_no_echo (msg : string) (sender : nat) (w : server) :
  let text := participant_nickname sender w +:+ says +:+ msg in
  let w' := room_deliver msg sender w in
  participants w' = participants w /\
  sessions w' !! sender = sessions w !! sender /\
  (forall p, p ∈ participants w -> p ≠ sender ->
     sessions w' !! p = chat_session.deliver text <$> sessions w !! p) /\
  (forall p, p ∉ participants w -> sessions w' !! p = sessions w !! p) /\
  (forall s, chat_session.write_msgs_ (chat_session.deliver text s) =
             chat_session.write_msgs_ s ++ [chat_message.of_string text]).
Proof.
  cbv zeta. split; [by rewrite room_deliver_room|].
  split; [rewrite room_deliver_lookup; rewrite decide_False; [done | by intros [_ ?]]|].
  split; [|split].
  - intros p Hp Hne. rewrite room_deliver_lookup. by rewrite decide_True.
  - intros p Hp. rewrite room_deliver_lookup. rewrite decide_False; [done | by intros [? _]].
  - intros s. apply deliver_write_msgs.
Qed.

(** C9.  [chat_room::system_prompt] calls [deliver] with the text behind
    the prefix "system prompt: " once on every member except the blocked
    one, and leaves the room (name, membership, history) as it was. *)
Theorem system_prompt_frame (msg : string) (blocked_user : nat) (w : server) :
  let text := system_prefix +:+ msg in
  let w' := system_prompt msg blocked_user w in
  room_ w' = room_ w /\
  sessions w' !! blocked_user = sessions w !! blocked_user /\
  (forall p, p ∈ participants w -> p ≠ blocked_user ->
     sessions w' !! p = chat_session.deliver text <$> sessions w !! p) /\
  (forall p, p ∉ participants w -> sessions w' !! p = sessions w !! p).
Proof.
  cbv zeta. split; [apply deliver_to_others_room|].
  split; [rewrite system_prompt_lookup; rewrite decide_False; [done | by intros [_ ?]]|].
  split.
  - intros p Hp Hne. rewrite system_prompt_lookup. by rewrite decide_True.
  - intros p Hp. rewrite system_prompt_lookup. rewrite decide_False; [done | by intros [? _]].
Qed.

(** C8.  [chat_room::leave] is total; on a session that is not a member it
    changes nothing; a second [leave] of the same session changes nothing
    more; and the membership count drops by one exactly when the session
    was a member. *)
Theorem leave_idempotent (p : nat) (w : server) :
  (p ∉ participants w -> leave p w = w) /\
  leave p (leave p w) = leave p w /\
  (p ∉ participants (leave p w)) /\
  (forall q, q ≠ p -> (q ∈ participants (leave p w) <-> q ∈ participants w)) /\
  size (participants (leave p (leave p w))) =
    (size (participants w) - (if decide (p ∈ participants w) then 1 else 0))%nat /\
  sessions (leave p w) = sessions w /\
  recent_msgs (leave p w) = recent_msgs w.
Proof.
  destruct w as [[name ps recent] ss]. unfold leave, set_room. cbn.
  split; [|split; [|split; [|split; [|split]]]].
  - intros Hp. do 2 f_equal. set_solver.
  - do 2 f_equal. set_solver.
  - set_solver.
  - set_solver.
  - replace (ps ∖ {[p]} ∖ {[p]}) with (ps ∖ {[p]}) by set_solver.
    case_decide as Hp.
    + rewrite size_difference by set_solver. by rewrite size_singleton.
    + replace (ps ∖ {[p]}) with ps by set_solver. lia.
  - done.
Qed.

(** C5.  [chat_room::deliver] appends the line made of the sender's
    nickname, " says: " and the body to the history and pops from the
    front while more than 100 entries remain, so the history holds at most
    100 entries afterwards; 101 bodies delivered in a row to a room whose
    history is within the bound (empty, for one) leave the membership as
    it was and the history equal to the formatted bodies 2 to 101, in
    order. *)
Theorem history_bounded :
  (forall (msg : string) (sender : nat) (w : server),
     let text := participant_nickname sender w +:+ says +:+ msg in
     let w' := room_deliver msg sender w in
     recent_msgs w' = pop_while_over (recent_msgs w ++ [text]) /\
     recent_msgs w' =
       drop (List.length (recent_msgs w ++ [text]) - chat_room.max_recent_msgs)
            (recent_msgs w ++ [text]) /\
     (List.length (recent_msgs w') <= 100)%nat) /\
  (forall (msgs : list string) (sender : nat) (w : server),
     List.length msgs = 101%nat ->
     (List.length (recent_msgs w) <= chat_room.max_recent_msgs)%nat ->
     let w' := room_deliver_all msgs sender w in
     participants w' = participants w /\
     List.length (recent_msgs w') = 100%nat /\
     recent_msgs w' =
       map (fun msg => participant_nickname sender w +:+ says +:+ msg) (drop 1 msgs)).
Proof.
  split.
  - intros msg sender w. cbv zeta. rewrite room_deliver_room. cbn [chat_room.recent_msgs_].
    split; [done|]. split; [apply pop_while_over_drop | apply pop_while_over_length].
  - intros msgs sender w Hlen Hbound. cbv zeta.
    split; [apply room_deliver_all_participants|].
    rewrite room_deliver_all_recent by done. unfold chat_room.max_recent_msgs in *.
    rewrite length_app, length_map, Hlen.
    rewrite drop_app_ge by lia.
    replace (List.length (recent_msgs w) + 101 - 100 - List.length (recent_msgs w))%nat
      with 1%nat by lia.
    rewrite length_drop, length_map, Hlen. split; [done|].
    apply skipn_map.
Qed.

End RoomClaims.

(** ** The event loop *)

Section Loop.

Implicit Types (w : server) (p q : nat) (s : chat_session.t) (ev : event).

Local Abbreviation participants w := (chat_room.participants_ (room_ w)).
Local Abbreviation recent_msgs w := (chat_room.recent_msgs_ (room_ w)).

(** The session the handlers of [do_accept] start with. *)
Local Abbreviation started w :=
  (chat_session.do_read_header
     (chat_session.deliver (welcome (chat_room.room_name_ (room_ w))) chat_session.new)).

Lemma fmap_deliver_nil (o : option chat_session.t) : deliver_list [] <$> o = o.
Proof. by destruct o. Qed.

Lemma fmap_deliver_one text (o : option chat_session.t) :
  deliver_list [text] <$> o = chat_session.deliver text <$> o.
Proof. by destruct o. Qed.

Lemma put_session_lookup p s w q :
  sessions (put_session p s w) !! q = if decide (p = q) then Some s else sessions w !! q.
Proof. unfold put_session. cbn [sessions]. apply lookup_insert. Qed.

Lemma on_session_lookup p f w q :
  sessions (on_session p f w) !! q =
  if decide (p = q) then f <$> sessions w !! q else sessions w !! q.
Proof.
  unfold on_session. cbn [sessions]. rewrite lookup_alter. case_decide; by subst.
Qed.

Lemma room_deliver_any msg sender w q :
  exists texts, sessions (room_deliver msg sender w) !! q =
                deliver_list texts <$> sessions w !! q.
Proof.
  rewrite room_deliver_lookup. case_decide.
  - eexists [_]. by rewrite fmap_deliver_one.
  - exists []. by rewrite fmap_deliver_nil.
Qed.

Lemma join_any p w q :
  exists texts, sessions (join p w) !! q = deliver_list texts <$> sessions w !! q.
Proof.
  rewrite join_lookup. repeat case_decide.
  - by eexists.
  - eexists [_]. by rewrite fmap_deliver_one.
  - exists []. by rewrite fmap_deliver_nil.
Qed.

(** What one handler run does to the sessions: the session whose operation
    completed takes one [session_step] and is then delivered some texts;
    every other session is only delivered texts; an accepted connection
    adds one session in its start state. *)
Lemma step_shape cs w ev w' :
  step cs w ev = Some w' ->
  w' = w \/
  (exists p, ev = Accepted success p /\ sessions w !! p = None /\ room_ w' = room_ w /\
     sessions w' = <[p := started w]> (sessions w)) \/
  (exists p s s1 texts,
     sessions w !! p = Some s /\ session_step s s1 /\
     sessions w' !! p = Some (deliver_list texts s1) /\
     (match ev with
      | Accepted _ _ => False
      | HeaderRead q _ _ | BodyRead q _ _ | Written q _ => q = p
      end) /\
     participants w' ⊆ {[p]} ∪ participants w /\
     forall q, q ≠ p ->
       exists texts', sessions w' !! q = deliver_list texts' <$> sessions w !! q).
Proof.
  destruct ev as [ec p|p ec bytes|p ec bytes|p ec]; cbn [step].
  - (* the accept handler *)
    unfold on_accept. destruct ec; [|intros [= <-]; by left].
    destruct (sessions w !! p) as [s|] eqn:Hp; [done|]. intros [= <-].
    right; left. exists p. split; [done|]. split; [done|]. split; [done|].
    unfold start, on_session, participant_deliver, put_session. cbn [sessions room_].
    apply map_eq. intros q. rewrite !lookup_alter, !lookup_insert.
    repeat case_decide; try done; subst; done.
  - (* the header handler *)
    unfold on_read_header.
    destruct (sessions w !! p) as [s|] eqn:Hp; [|done].
    destruct (reads (chat_session.socket_ s)) as [|[] rest] eqn:Hreads; try done.
    set (s1 := read_completed 0 (take chat_message.header_length bytes) s).
    intros Hstep. right; right. exists p, s.
    destruct ec.
    + destruct (chat_message.decode_header cs (chat_session.read_msg_ s1)) as [m ok].
      destruct ok; injection Hstep as <-.
      * exists (chat_session.do_read_body (set_read_msg m s1)), [].
        split; [done|]. split; [by eapply ss_header_accepted|].
        rewrite put_session_lookup, decide_True by done. split; [done|]. split; [done|]. split; [cbn; set_solver|].
        intros q Hq. exists []. by rewrite put_session_lookup, decide_False, fmap_deliver_nil.
      * exists (set_read_msg m s1), [].
        split; [done|]. split; [by eapply ss_header_refused|].
        rewrite leave_sessions, put_session_lookup, decide_True by done.
        split; [done|]. split; [done|]. split; [cbn; set_solver|].
        intros q Hq. exists [].
        by rewrite ?leave_sessions, put_session_lookup, decide_False, fmap_deliver_nil.
    + injection Hstep as <-. exists (set_read_msg (chat_session.read_msg_ s1) s1), [].
      split; [done|]. split; [by eapply ss_header_refused|].
      rewrite leave_sessions, put_session_lookup, decide_True by done.
      split; [done|]. split; [done|]. split; [cbn; set_solver|].
      intros q Hq. exists [].
      by rewrite ?leave_sessions, put_session_lookup, decide_False, fmap_deliver_nil.
  - (* the body handler *)
    unfold on_read_body.
    destruct (sessions w !! p) as [s|] eqn:Hp; [|done].
    destruct (reads (chat_session.socket_ s)) as [|[] rest] eqn:Hreads; try done.
    set (n := Z.to_nat (chat_message.body_length (chat_session.read_msg_ s))).
    set (s1 := read_completed chat_message.header_length (take n bytes) s).
    intros Hstep. right; right. exists p, s.
    destruct ec; injection Hstep as <-.
    + destruct (chat_session.state_ s) eqn:Hst; cbv beta iota zeta.
      * (* NOT_AUTHED: the name is taken, the session joins *)
        set (s2 := chat_session.mk _ chat_session.AUTHED _ _ _).
        exists (chat_session.do_read_header s2), (auth_passed :: replayed (recent_msgs w)).
        split; [done|]. split; [eapply ss_body_read; eauto|]. split; [|split; [done|split]].
        -- rewrite on_session_lookup, decide_True, join_lookup, decide_True by done.
           rewrite participant_deliver_lookup, decide_True by done.
           rewrite put_session_lookup, decide_True by done. cbn [fmap option_fmap option_map].
           f_equal. rewrite do_read_header_deliver_list, do_read_header_deliver. done.
        -- unfold on_session. cbn [room_]. rewrite join_room. cbn. set_solver.
        -- intros q Hq. rewrite on_session_lookup, decide_False by done.
           destruct (join_any p (participant_deliver p auth_passed (put_session p s2 w)) q)
             as [texts ->].
           exists texts.
           by rewrite participant_deliver_lookup, decide_False, put_session_lookup,
             decide_False.
      * (* AUTHED: the body is relayed *)
        exists (chat_session.do_read_header s1), [].
        split; [done|]. split; [eapply (ss_body_read s rest (take n bytes)
                                            (chat_session.state_ s1)
                                            (chat_session.nickname_ s1)); eauto|].
        split; [|split; [done|split]].
        -- rewrite on_session_lookup, decide_True, room_deliver_lookup by done.
           rewrite decide_False by (by intros [_ ?]).
           by rewrite put_session_lookup, decide_True.
        -- unfold on_session. cbn [room_]. rewrite room_deliver_room. cbn. set_solver.
        -- intros q Hq. rewrite on_session_lookup, decide_False by done.
           destruct (room_deliver_any (body_string s1) p (put_session p s1 w) q)
             as [texts ->].
           exists texts. by rewrite put_session_lookup, decide_False.
      * (* FAILED *)
        exists (chat_session.do_read_header s1), [].
        split; [done|]. split; [eapply (ss_body_read s rest (take n bytes)
                                            (chat_session.state_ s1)
                                            (chat_session.nickname_ s1)); eauto|].
        split; [|split; [done|split]].
        -- by rewrite on_session_lookup, decide_True, put_session_lookup, decide_True.
        -- cbn. set_solver.
        -- intros q Hq. exists [].
           by rewrite on_session_lookup, decide_False, put_session_lookup, decide_False,
             fmap_deliver_nil.
    + exists s1, []. split; [done|]. split; [by eapply ss_body_failed|].
      rewrite leave_sessions, put_session_lookup, decide_True by done.
      split; [done|]. split; [done|]. split; [cbn; set_solver|].
      intros q Hq. exists [].
      by rewrite ?leave_sessions, put_session_lookup, decide_False, fmap_deliver_nil.
  - (* the write handler *)
    unfold on_write.
    destruct (sessions w !! p) as [s|] eqn:Hp; [|done].
    destruct (writes (chat_session.socket_ s)) as [|buf rest] eqn:Hwrites; [done|].
    intros Hstep. right; right. exists p, s.
    destruct ec; injection Hstep as <-.
    + eexists _, []. split; [done|]. split; [by eapply ss_written|].
      rewrite put_session_lookup, decide_True by done. split; [done|]. split; [done|]. split; [cbn; set_solver|].
      intros q Hq. exists []. by rewrite put_session_lookup, decide_False, fmap_deliver_nil.
    + eexists _, []. split; [done|]. split; [by eapply ss_write_failed|].
      rewrite leave_sessions, put_session_lookup, decide_True by done.
      split; [done|]. split; [done|]. split; [cbn; set_solver|].
      intros q Hq. exists [].
      by rewrite ?leave_sessions, put_session_lookup, decide_False, fmap_deliver_nil.
Qed.


(** *** Invariants of one session *)

Lemma session_ok_started room_name :
  session_ok (chat_session.do_read_header
                (chat_session.deliver (welcome room_name) chat_session.new)).
Proof. split; [cbn; lia|]. right. by eexists _, []. Qed.

Lemma session_ok_step s s' : session_step s s' -> session_ok s -> session_ok s'.
Proof.
  intros Hstep [Hreads Hwrites].
  destruct Hstep as [text s|s rest bytes m Hr|s rest bytes m Hr|s rest bytes st nick Hr Hst
                     |s rest bytes Hr|s buf rest Hw|s buf rest Hw].
  - (* deliver *)
    rewrite deliver_unfold. split; [done|]. cbn.
    destruct Hwrites as [Hnone|(m & rest & Hq & Hone)].
    + rewrite Hnone. case_bool_decide as Hempty; [|by left].
      right. rewrite Hempty. by eexists _, [].
    + rewrite Hq, Hone. rewrite bool_decide_false by done. right. by eexists _, _.
  - rewrite Hr in Hreads. destruct rest; [|cbn in Hreads; lia].
    destruct s as [[rs ws wr] st nick rm q]. cbn in *. subst rs. by split.
  - rewrite Hr in Hreads. destruct rest; [|cbn in Hreads; lia].
    destruct s as [[rs ws wr] st nick rm q]. cbn in *. subst rs. split; [cbn; lia | done].
  - rewrite Hr in Hreads. destruct rest; [|cbn in Hreads; lia].
    destruct s as [[rs ws wr] st0 nick0 rm q]. cbn in *. subst rs. by split.
  - rewrite Hr in Hreads. destruct rest; [|cbn in Hreads; lia].
    destruct s as [[rs ws wr] st nick rm q]. cbn in *. subst rs. split; [cbn; lia | done].
  - (* a write completed *)
    destruct Hwrites as [Hnone|(m & q & Hq & Hone)]; [congruence|].
    rewrite Hw in Hone. injection Hone as -> ->.
    destruct s as [[rs ws wr] st nick rm q0]. cbn in *. subst q0 ws. cbn.
    destruct q as [|m' q]; cbn.
    + split; [done | by left].
    + split; [done|]. right. by eexists _, _.
  - destruct Hwrites as [Hnone|(m & q & Hq & Hone)]; [congruence|].
    rewrite Hw in Hone. injection Hone as -> ->.
    destruct s as [[rs ws wr] st nick rm q0]. cbn in *. split; [done | by left].
Qed.

Lemma session_ok_rtc s s' : rtc session_step s s' -> session_ok s -> session_ok s'.
Proof. induction 1; eauto using session_ok_step. Qed.

(** A session without an outstanding read stays so: each handler that
    starts a read is the handler of a read. *)
Lemma reads_stopped_step s s' :
  session_step s s' ->
  reads (chat_session.socket_ s) = [] -> reads (chat_session.socket_ s') = [].
Proof.
  intros Hstep Hnone.
  destruct Hstep as [text s|s rest bytes m Hr|s rest bytes m Hr|s rest bytes st nick Hr Hst
                     |s rest bytes Hr|s buf rest Hw|s buf rest Hw]; try congruence.
  - by rewrite deliver_reads.
  - destruct s as [[rs ws wr] st nick rm q]. cbn in *. subst.
    destruct q as [|m [|m' q]]; done.
  - destruct s as [[rs ws wr] st nick rm q]. by cbn in *.
Qed.

(** [FAILED] is assigned nowhere. *)
Lemma never_failed_step s s' :
  session_step s s' ->
  chat_session.state_ s ≠ chat_session.FAILED ->
  chat_session.state_ s' ≠ chat_session.FAILED.
Proof.
  intros Hstep Hne.
  destruct Hstep as [text s|s rest bytes m Hr|s rest bytes m Hr|s rest bytes st nick Hr Hst
                     |s rest bytes Hr|s buf rest Hw|s buf rest Hw]; try done.
  - by rewrite deliver_state.
  - cbn. destruct Hst as [->| ->]; done.
  - cbn. case_bool_decide; [done|]. unfold chat_session.do_write. cbn.
    by destruct (tail (chat_session.write_msgs_ s)).
Qed.

(** What a session step does to the frames: the stream the session was
    given grows at its end only, by the frames delivered, and a frame that
    goes out is the one at the front of the queue. *)
Lemma outbound_step s s' :
  session_step s s' -> session_ok s ->
  (exists texts,
     outbound s' = outbound s ++
       map (fun text => chat_message.frame (chat_message.of_string text)) texts) /\
  (written (chat_session.socket_ s') = written (chat_session.socket_ s) \/
   exists m, head (chat_session.write_msgs_ s) = Some m /\
     written (chat_session.socket_ s') =
     written (chat_session.socket_ s) ++ [chat_message.frame m]).
Proof.
  intros Hstep [Hreads Hwrites].
  destruct Hstep as [text s|s rest bytes m Hr|s rest bytes m Hr|s rest bytes st nick Hr Hst
                     |s rest bytes Hr|s buf rest Hw|s buf rest Hw].
  - split; [exists [text]; apply deliver_outbound | left; apply deliver_written].
  - split; [exists []; cbn; by rewrite app_nil_r | by left].
  - split; [exists []; cbn; by rewrite app_nil_r | by left].
  - split; [exists []; cbn; by rewrite app_nil_r | by left].
  - split; [exists []; cbn; by rewrite app_nil_r | by left].
  - destruct Hwrites as [Hnone|(m & q & Hq & Hone)]; [congruence|].
    rewrite Hw in Hone. injection Hone as -> ->.
    destruct s as [[rs ws wr] st nick rm q0]. cbn in *. subst q0 ws.
    split.
    + exists []. unfold outbound. cbn. rewrite app_nil_r.
      destruct q as [|m' q]; cbn; by rewrite <- app_assoc.
    + right. exists m. split; [done|]. by destruct q.
  - split; [exists []; unfold outbound; cbn; by rewrite app_nil_r | by left].
Qed.


(** *** Invariants of the server *)

Lemma rtc_step_then_deliver s s1 texts :
  session_step s s1 -> rtc session_step s (deliver_list texts s1).
Proof. intros H. eapply rtc_l; [done | apply rtc_deliver_list]. Qed.

Lemma server_ok_init : server_ok chat_server.
Proof. split; [intros p s H; cbn in H; by rewrite lookup_empty in H | cbn; set_solver]. Qed.

Lemma session_inv_rtc s s' :
  rtc session_step s s' ->
  session_ok s /\ chat_session.state_ s ≠ chat_session.FAILED ->
  session_ok s' /\ chat_session.state_ s' ≠ chat_session.FAILED.
Proof.
  induction 1 as [|s s1 s2 Hstep _ IH]; [done|]. intros [Hok Hst]. apply IH.
  split; [by eapply session_ok_step | by eapply never_failed_step].
Qed.

Lemma server_ok_step cs w ev w' :
  step cs w ev = Some w' -> server_ok w -> server_ok w'.
Proof.
  intros Hstep [Hsess Hdom].
  destruct (step_shape _ _ _ _ Hstep)
    as [->|[(p & _ & Hfresh & Hroom & Hnew)
           |(p & s & s1 & texts & Hp & Hs & Hp' & _ & Hpart & Hothers)]]; [done|..].
  - split.
    + intros q sq. rewrite Hnew, lookup_insert. case_decide.
      * intros [= <-]. split; [apply session_ok_started | done].
      * apply Hsess.
    + rewrite Hroom, Hnew, dom_insert_L. set_solver.
  - split.
    + intros q sq Hq. destruct (decide (q = p)) as [->|Hne].
      * rewrite Hp' in Hq. injection Hq as <-.
        eapply session_inv_rtc; [by apply rtc_step_then_deliver | by eapply Hsess].
      * destruct (Hothers q Hne) as [texts' Heq]. rewrite Heq in Hq.
        destruct (sessions w !! q) as [sq0|] eqn:Hq0; [|done]. injection Hq as <-.
        eapply session_inv_rtc; [apply rtc_deliver_list | by eapply Hsess].
    + intros q Hq. apply elem_of_dom. destruct (decide (q = p)) as [->|Hne]; [by eexists|].
      destruct (Hothers q Hne) as [texts' ->].
      assert (q ∈ participants w) as Hin by set_solver.
      apply Hdom, elem_of_dom in Hin as [sq ->]. by eexists.
Qed.

Lemma server_ok_run cs evs w w' :
  run cs w evs = Some w' -> server_ok w -> server_ok w'.
Proof.
  revert w. induction evs as [|ev evs IH]; intros w; cbn [run].
  - by intros [= <-].
  - destruct (step cs w ev) as [w1|] eqn:Hstep; [|done].
    intros Hrun Hok. eapply IH; [done | by eapply server_ok_step].
Qed.

Lemma reachable_ok cs w : reachable cs w -> server_ok w.
Proof. intros [evs Hrun]. eapply server_ok_run; [done | apply server_ok_init]. Qed.

Lemma run_app cs evs1 evs2 w :
  run cs w (evs1 ++ evs2) =
  match run cs w evs1 with Some w1 => run cs w1 evs2 | None => None end.
Proof.
  revert w. induction evs1 as [|ev evs1 IH]; intros w; [done|]. cbn [run app].
  destruct (step cs w ev); [apply IH | done].
Qed.

Lemma reachable_step cs w ev w' :
  reachable cs w -> step cs w ev = Some w' -> reachable cs w'.
Proof.
  intros [evs Hrun] Hstep. exists (evs ++ [ev]). rewrite run_app, Hrun. cbn. by rewrite Hstep.
Qed.

(** *** A session that has stopped reading *)

Lemma reads_stopped_rtc s s' :
  rtc session_step s s' ->
  reads (chat_session.socket_ s) = [] -> reads (chat_session.socket_ s') = [].
Proof. induction 1; eauto using reads_stopped_step. Qed.

Lemma reads_stopped_preserved cs w ev w' p :
  step cs w ev = Some w' -> reads_stopped p w ->
  reads_stopped p w' /\ ¬ is_read_of p ev.
Proof.
  intros Hstep (s & Hs & Hnone). split.
  - destruct (step_shape _ _ _ _ Hstep)
      as [->|[(p0 & _ & Hfresh & Hroom & Hnew)
             |(p0 & s0 & s1 & texts & Hp & Hs0 & Hp' & _ & Hpart & Hothers)]].
    + by exists s.
    + exists s. split; [|done]. rewrite Hnew, lookup_insert_ne; [done | congruence].
    + destruct (decide (p = p0)) as [->|Hne].
      * eexists. split; [done|]. simplify_eq.
        eapply reads_stopped_rtc; [by apply rtc_step_then_deliver | done].
      * destruct (Hothers p Hne) as [texts' Heq]. rewrite Hs in Heq.
        eexists. split; [done|]. by rewrite deliver_list_reads.
  - destruct ev as [ec q|q ec bytes|q ec bytes|q ec]; cbn; try tauto; intros ->.
    + cbn in Hstep. unfold on_read_header in Hstep. by rewrite Hs, Hnone in Hstep.
    + cbn in Hstep. unfold on_read_body in Hstep. by rewrite Hs, Hnone in Hstep.
Qed.

Lemma reads_stopped_run cs evs w w' p :
  run cs w evs = Some w' -> reads_stopped p w ->
  reads_stopped p w' /\ Forall (fun ev => ¬ is_read_of p ev) evs.
Proof.
  revert w. induction evs as [|ev evs IH]; intros w; cbn [run].
  - intros [= <-] ?. by split.
  - destruct (step cs w ev) as [w1|] eqn:Hstep; [|done]. intros Hrun Hstopped.
    destruct (reads_stopped_preserved _ _ _ _ _ Hstep Hstopped) as [H1 Hev].
    destruct (IH _ Hrun H1) as [H2 Hevs]. split; [done | by constructor].
Qed.

End Loop.

(** ** Joining, and strings longer than a frame *)

Section SessionClaims.

Local Abbreviation participants w := (chat_room.participants_ (room_ w)).
Local Abbreviation recent_msgs w := (chat_room.recent_msgs_ (room_ w)).

(** C6.  [chat_room::join] adds the session to the membership set and
    leaves the history as it was.  The joining session is delivered the
    history entries in their order and then the delimiter line, once, when
    and only when the history is not empty, and nothing else: the join
    notice goes once to every other member and not to the joining session.
    The replay is queued behind what the session already had and ahead of
    the text of any later [chat_room::deliver]. *)
Theorem join_replays_history (p : nat) (w : server) :
  let w' := join p w in
  let notice := system_prefix +:+ (participant_nickname p w +:+ joined_suffix) in
  let replay := recent_msgs w ++
                (if bool_decide (recent_msgs w = []) then [] else [history_delimiter]) in
  participants w' = {[p]} ∪ participants w /\
  recent_msgs w' = recent_msgs w /\
  sessions w' !! p = deliver_list replay <$> sessions w !! p /\
  (forall s, chat_session.write_msgs_ (deliver_list replay s) =
             chat_session.write_msgs_ s ++ map chat_message.of_string replay) /\
  (forall q, q ≠ p -> q ∈ participants w ->
     sessions w' !! q = chat_session.deliver notice <$> sessions w !! q) /\
  (forall q, q ≠ p -> q ∉ participants w -> sessions w' !! q = sessions w !! q) /\
  (forall msg sender s, sender ≠ p -> sessions w !! p = Some s ->
     exists s', sessions (room_deliver msg sender w') !! p = Some s' /\
       chat_session.write_msgs_ s' =
       chat_session.write_msgs_ s ++ map chat_message.of_string replay ++
       [chat_message.of_string (participant_nickname sender w' +:+ says +:+ msg)]).
Proof.
  cbv zeta. fold (replayed (recent_msgs w)).
  split; [by rewrite join_room|]. split; [by rewrite join_room|].
  split; [by rewrite join_lookup, decide_True|].
  split; [intros s; apply deliver_list_write_msgs|].
  split; [|split].
  - intros q Hne Hq. by rewrite join_lookup, decide_False, decide_True.
  - intros q Hne Hq. by rewrite join_lookup, decide_False, decide_False.
  - intros msg sender s Hne Hs.
    rewrite room_deliver_lookup, decide_True by (rewrite join_room; cbn; set_solver).
    rewrite join_lookup, decide_True, Hs by done. eexists. split; [done|].
    by rewrite deliver_write_msgs, deliver_list_write_msgs, <- app_assoc.
Qed.

(** C10.  [chat_message(std::string const&)] on a string of more than 512
    bytes keeps the first 512 bytes as the body and writes the header
    00 00 02 00, which declares 512; [chat_session::deliver] enqueues that
    message, so the frame the session is given to send is the header and
    the first 512 bytes of the string. *)
Theorem long_string_truncated (msg : string) :
  (512 < String.length msg)%nat ->
  let m := chat_message.of_string msg in
  chat_message.body_length_ m = 512 /\
  chat_message.body m = take 512 (list_ascii_of_string msg) /\
  List.length (chat_message.body m) = 512%nat /\
  chat_message.header m = ["000"; "000"; "002"; "000"]%char /\
  chat_message.frame m =
    ["000"; "000"; "002"; "000"]%char ++ take 512 (list_ascii_of_string msg) /\
  (forall s, chat_session.write_msgs_ (chat_session.deliver msg s) =
             chat_session.write_msgs_ s ++ [m]) /\
  (forall s, outbound (chat_session.deliver msg s) =
             outbound s ++
             [["000"; "000"; "002"; "000"]%char ++ take 512 (list_ascii_of_string msg)]).
Proof.
  intros Hlong. cbv zeta.
  assert (chat_message.body_length_ (chat_message.of_string msg) = 512) as Hlen.
  { rewrite of_string_body_length. unfold chat_message.max_body_length. lia. }
  assert (chat_message.body (chat_message.of_string msg) =
          take 512 (list_ascii_of_string msg)) as Hbody.
  { by rewrite of_string_body, Hlen. }
  assert (chat_message.header (chat_message.of_string msg) =
          ["000"; "000"; "002"; "000"]%char) as Hheader.
  { destruct (of_string_encoded msg) as [d Hd]. rewrite Hlen in Hd. by rewrite Hd. }
  assert (chat_message.frame (chat_message.of_string msg) =
          ["000"; "000"; "002"; "000"]%char ++ take 512 (list_ascii_of_string msg))
    as Hframe.
  { by rewrite of_string_frame, Hheader, Hbody. }
  split; [done|]. split; [done|].
  split; [rewrite Hbody, length_take, length_list_ascii_of_string; lia|].
  split; [done|]. split; [done|].
  split; intros s; [apply deliver_write_msgs | by rewrite deliver_outbound, Hframe].
Qed.

Lemma long_string_truncated_witness :
  (512 < String.length (payload 600))%nat /\
  chat_message.body_length_ (chat_message.of_string (payload 600)) = 512 /\
  chat_message.frame (chat_message.of_string (payload 600)) =
    ["000"; "000"; "002"; "000"]%char ++ replicate 512 "a"%char.
Proof.
  assert (512 < String.length (payload 600))%nat as Hlong by (vm_compute; lia).
  destruct (long_string_truncated (payload 600) Hlong) as (Hlen & _ & _ & _ & Hframe & _).
  split; [exact Hlong|]. split; [exact Hlen|]. rewrite Hframe. reflexivity.
Defined.

End SessionClaims.

(** ** Failed reads and the write loop *)

Section LoopClaims.

Implicit Types (w : server) (p q : nat) (s : chat_session.t) (ev : event).

Local Abbreviation participants w := (chat_room.participants_ (room_ w)).
Local Abbreviation recent_msgs w := (chat_room.recent_msgs_ (room_ w)).

Lemma deliver_list_written texts s :
  written (chat_session.socket_ (deliver_list texts s)) = written (chat_session.socket_ s).
Proof.
  revert s. induction texts as [|text texts IH]; intros s; [done|].
  cbn. fold (deliver_list texts (chat_session.deliver text s)).
  by rewrite IH, deliver_written.
Qed.

Lemma alice_joins_runs cs : run cs chat_server alice_joins = Some (after cs alice_joins).
Proof. destruct cs; vm_compute; reflexivity. Qed.

Lemma alice_joins_reachable cs : reachable cs (after cs alice_joins).
Proof. exists alice_joins. apply alice_joins_runs. Qed.

(** What a failed read does, whichever of the three ways it fails. *)
Lemma read_fails_step cs w p ev w' :
  read_fails cs p ev w -> step cs w ev = Some w' ->
  exists s rest bytes_at bytes m,
    sessions w !! p = Some s /\
    tail (reads (chat_session.socket_ s)) = rest /\
    reads (chat_session.socket_ s) ≠ [] /\
    w' = leave p (put_session p (set_read_msg m (read_completed bytes_at bytes s)) w).
Proof.
  destruct ev as [ec q|q ec bytes|q ec bytes|q ec]; cbn [read_fails step]; [done|..|done].
  - unfold on_read_header.
    destruct ec.
    + intros (-> & s & Hs & Hrefused). rewrite Hs.
      destruct (reads (chat_session.socket_ s)) as [|[] rest] eqn:Hreads; try done.
      destruct (chat_message.decode_header cs _) as [m ok]. cbn in Hrefused. subst ok.
      intros [= <-].
      exists s, rest, 0%nat, (take chat_message.header_length bytes), m.
      by rewrite Hreads.
    + intros ->. destruct (sessions w !! p) as [s|]; [|done].
      destruct (reads (chat_session.socket_ s)) as [|[] rest] eqn:Hreads; try done.
      intros [= <-].
      set (s1 := read_completed 0 (take chat_message.header_length bytes) s).
      exists s, rest, 0%nat, (take chat_message.header_length bytes),
        (chat_session.read_msg_ s1).
      by rewrite Hreads.
  - unfold on_read_body. destruct ec; [done|]. intros ->.
    destruct (sessions w !! p) as [s|]; [|done].
    destruct (reads (chat_session.socket_ s)) as [|[] rest] eqn:Hreads; try done.
    intros [= <-].
    set (n := Z.to_nat (chat_message.body_length (chat_session.read_msg_ s))).
    set (s1 := read_completed chat_message.header_length (take n bytes) s).
    exists s, rest, chat_message.header_length, (take n bytes),
      (chat_session.read_msg_ s1).
    by rewrite Hreads.
Qed.

(** C3, as the code has it.  When a read of a session fails (the read
    completes with an error, or the header read completes and
    [decode_header] refuses the header), the handler calls
    [chat_room::leave] on the session and starts no read: the session is
    no member afterwards, has no read outstanding, and no later run of
    the event loop completes or starts a read for it.  Its [state_],
    nickname and write queue are left as they were, and [state_] is not
    [FAILED], which no handler assigns; the other sessions and the history
    are untouched. *)
Theorem read_failure_leaves_and_stops cs w p ev w' :
  reachable cs w -> read_fails cs p ev w -> step cs w ev = Some w' ->
  participants w' = participants w ∖ {[p]} /\
  recent_msgs w' = recent_msgs w /\
  (exists s s', sessions w !! p = Some s /\ sessions w' !! p = Some s' /\
     reads (chat_session.socket_ s') = [] /\
     chat_session.state_ s' = chat_session.state_ s /\
     chat_session.state_ s' ≠ chat_session.FAILED /\
     chat_session.nickname_ s' = chat_session.nickname_ s /\
     chat_session.write_msgs_ s' = chat_session.write_msgs_ s /\
     writes (chat_session.socket_ s') = writes (chat_session.socket_ s)) /\
  (forall q, q ≠ p -> sessions w' !! q = sessions w !! q) /\
  (forall evs w'', run cs w' evs = Some w'' ->
     reads_stopped p w'' /\ Forall (fun ev' => ¬ is_read_of p ev') evs).
Proof.
  intros Hreach Hfails Hstep.
  destruct (read_fails_step _ _ _ _ _ Hfails Hstep)
    as (s & rest & bytes_at & bytes & m & Hs & Hrest & Hpending & ->).
  destruct (reachable_ok _ _ Hreach) as [Hsess _].
  destruct (Hsess _ _ Hs) as [[Hone _] _].
  assert (rest = []) as ->.
  { destruct (reads (chat_session.socket_ s)) as [|r [|r' rs]]; cbn in *; [done|done|lia]. }
  assert (sessions (leave p (put_session p
            (set_read_msg m (read_completed bytes_at bytes s)) w)) !! p =
          Some (set_read_msg m (read_completed bytes_at bytes s))) as Hp'.
  { by rewrite leave_sessions, put_session_lookup, decide_True. }
  split; [done|]. split; [done|]. split; [|split].
  - eexists s, _. split; [done|]. split; [exact Hp'|].
    split; [by cbn|]. split; [by cbn|]. split; [|by cbn].
    by destruct (Hsess _ _ Hs) as [_ Hst].
  - intros q Hq. by rewrite leave_sessions, put_session_lookup, decide_False.
  - intros evs w'' Hrun. eapply reads_stopped_run; [done|].
    eexists. split; [exact Hp' | by cbn].
Qed.

Lemma read_failure_leaves_and_stops_witness :
  reachable SignedChar (after SignedChar alice_joins) /\
  read_fails SignedChar 1 (HeaderRead 1 success oversized_header)
    (after SignedChar alice_joins) /\
  1%nat ∈ participants (after SignedChar alice_joins) /\
  let w' := after SignedChar (alice_joins ++ [HeaderRead 1 success oversized_header]) in
  participants w' = participants (after SignedChar alice_joins) ∖ {[1%nat]} /\
  forall evs w'', run SignedChar w' evs = Some w'' ->
    reads_stopped 1 w'' /\ Forall (fun ev' => ¬ is_read_of 1 ev') evs.
Proof.
  assert (read_fails SignedChar 1 (HeaderRead 1 success oversized_header)
            (after SignedChar alice_joins)) as Hfails.
  { split; [done|]. eexists. split; vm_compute; reflexivity. }
  split; [apply alice_joins_reachable|]. split; [exact Hfails|].
  split; [vm_compute; reflexivity|]. cbv zeta.
  destruct (read_failure_leaves_and_stops SignedChar (after SignedChar alice_joins) 1
              (HeaderRead 1 success oversized_header)
              (after SignedChar (alice_joins ++ [HeaderRead 1 success oversized_header]))
              (alice_joins_reachable SignedChar) Hfails)
    as (Hpart & _ & _ & _ & Hlater); [vm_compute; reflexivity|].
  split; [exact Hpart | exact Hlater].
Defined.

(** C3, as the claim states it, fails: the authenticated session of
    "alice" reads a header that declares 513 bytes; [decode_header] refuses
    it, the handler calls [leave], and [state_] is still [AUTHED], not the
    terminal state [FAILED]. *)
Lemma read_failure_state_unchanged :
  let w := after SignedChar alice_joins in
  let ev := HeaderRead 1 success oversized_header in
  run SignedChar chat_server alice_joins = Some w /\
  read_fails SignedChar 1 ev w /\
  chat_session.state_ <$> sessions w !! 1%nat = Some chat_session.AUTHED /\
  chat_session.state_ <$> (step SignedChar w ev ≫= fun w' => sessions w' !! 1%nat) =
    Some chat_session.AUTHED /\
  chat_session.AUTHED ≠ chat_session.FAILED.
Proof.
  cbv zeta. split; [apply alice_joins_runs|].
  split; [split; [done|]; eexists; split; vm_compute; reflexivity|].
  split; [vm_compute; reflexivity|]. split; [vm_compute; reflexivity | done].
Qed.


(** What one handler run does to the frames of a session. *)
Lemma outbound_server_step cs w ev w' p s :
  server_ok w -> step cs w ev = Some w' -> sessions w !! p = Some s ->
  exists s' texts,
    sessions w' !! p = Some s' /\
    outbound s' = outbound s ++
      map (fun text => chat_message.frame (chat_message.of_string text)) texts /\
    (written (chat_session.socket_ s') = written (chat_session.socket_ s) \/
     exists m, head (chat_session.write_msgs_ s) = Some m /\
       written (chat_session.socket_ s') =
       written (chat_session.socket_ s) ++ [chat_message.frame m]).
Proof.
  intros [Hsess _] Hstep Hs.
  destruct (step_shape _ _ _ _ Hstep)
    as [->|[(p0 & _ & Hfresh & Hroom & Hnew)
           |(p0 & s0 & s1 & texts & Hp & Hs0 & Hp' & _ & Hpart & Hothers)]].
  - exists s, []. split; [done|]. split; [cbn; by rewrite app_nil_r | by left].
  - exists s, []. split; [rewrite Hnew, lookup_insert_ne; [done | congruence]|].
    split; [cbn; by rewrite app_nil_r | by left].
  - destruct (decide (p = p0)) as [->|Hne].
    + simplify_eq. destruct (Hsess _ _ Hs) as [Hok _].
      destruct (outbound_step _ _ Hs0 Hok) as [[texts1 Hout] Hwritten].
      exists (deliver_list texts s1), (texts1 ++ texts). split; [done|].
      split; [by rewrite deliver_list_outbound, Hout, map_app, app_assoc|].
      by rewrite deliver_list_written.
    + destruct (Hothers p Hne) as [texts' Heq]. rewrite Hs in Heq.
      exists (deliver_list texts' s), texts'. split; [done|].
      split; [apply deliver_list_outbound | left; apply deliver_list_written].
Qed.

(** Over a run of the event loop, what a session has written since the
    start of the run, followed by what is still in its queue, is what the
    queue held at the start followed by the frames delivered during the
    run, in call order. *)
Lemma outbound_server_run cs evs w w' p s :
  reachable cs w -> run cs w evs = Some w' -> sessions w !! p = Some s ->
  exists s' texts sent,
    sessions w' !! p = Some s' /\
    written (chat_session.socket_ s') = written (chat_session.socket_ s) ++ sent /\
    sent ++ map chat_message.frame (chat_session.write_msgs_ s') =
      map chat_message.frame (chat_session.write_msgs_ s) ++
      map (fun text => chat_message.frame (chat_message.of_string text)) texts.
Proof.
  revert w s. induction evs as [|ev evs IH]; intros w s Hreach; cbn [run].
  - intros [= <-] Hs. exists s, [], []. split; [done|]. by rewrite !app_nil_r.
  - destruct (step cs w ev) as [w1|] eqn:Hstep; [|done]. intros Hrun Hs.
    destruct (outbound_server_step _ _ _ _ _ _ (reachable_ok _ _ Hreach) Hstep Hs)
      as (s1 & texts1 & Hs1 & Hout1 & Hwritten1).
    destruct (IH w1 s1 (reachable_step _ _ _ _ Hreach Hstep) Hrun Hs1)
      as (s' & texts2 & sent2 & Hs' & Hwritten2 & Hfifo2).
    assert (exists sent1, written (chat_session.socket_ s1) =
                          written (chat_session.socket_ s) ++ sent1) as [sent1 Hsent1].
    { destruct Hwritten1 as [->|(m & _ & ->)]; [exists [] | by eexists].
      by rewrite app_nil_r. }
    exists s', (texts1 ++ texts2), (sent1 ++ sent2). split; [done|].
    split; [by rewrite Hwritten2, Hsent1, app_assoc|].
    unfold outbound in Hout1. rewrite Hsent1, <- !app_assoc in Hout1.
    apply app_inv_head in Hout1.
    by rewrite <- app_assoc, Hfifo2, app_assoc, Hout1, map_app, app_assoc.
Qed.

Lemma write_completes cs w p s :
  server_ok w -> sessions w !! p = Some s -> writes (chat_session.socket_ s) ≠ [] ->
  exists m rest,
    chat_session.write_msgs_ s = m :: rest /\
    writes (chat_session.socket_ s) = [chat_message.frame m] /\
    step cs w (Written p success) = Some (put_session p (write_popped s m rest) w).
Proof.
  intros [Hsess _] Hs Hpending.
  destruct (Hsess _ _ Hs) as [[_ [Hnone|(m & rest & Hq & Hone)]] _]; [done|].
  exists m, rest. split; [done|]. split; [done|].
  cbn [step]. unfold on_write. rewrite Hs, Hone, Hq. cbn [tail].
  destruct s as [[rs ws wr] st nick rm q0]. cbn in *.
  destruct rest as [|m' rest]; reflexivity.
Qed.

Lemma write_fails cs w p s :
  server_ok w -> sessions w !! p = Some s -> writes (chat_session.socket_ s) ≠ [] ->
  step cs w (Written p failure) =
  Some (leave p (put_session p (write_dropped s) w)).
Proof.
  intros [Hsess _] Hs Hpending.
  destruct (Hsess _ _ Hs) as [[_ [Hnone|(m & rest & Hq & Hone)]] _]; [done|].
  cbn [step]. unfold on_write. rewrite Hs, Hone. reflexivity.
Qed.

Lemma write_not_outstanding cs w p s ec :
  sessions w !! p = Some s -> writes (chat_session.socket_ s) = [] ->
  step cs w (Written p ec) = None.
Proof. intros Hs Hnone. cbn [step]. unfold on_write. by rewrite Hs, Hnone. Qed.

(** As many completed writes as the queue has frames empty the queue, in
    its order, onto the socket. *)
Lemma write_loop_drains cs w p s :
  reachable cs w -> sessions w !! p = Some s -> writes (chat_session.socket_ s) ≠ [] ->
  exists w' s',
    run cs w (replicate (List.length (chat_session.write_msgs_ s)) (Written p success)) =
      Some w' /\
    sessions w' !! p = Some s' /\
    written (chat_session.socket_ s') =
      written (chat_session.socket_ s) ++
      map chat_message.frame (chat_session.write_msgs_ s) /\
    chat_session.write_msgs_ s' = [] /\
    writes (chat_session.socket_ s') = [] /\
    room_ w' = room_ w /\
    forall q, q ≠ p -> sessions w' !! q = sessions w !! q.
Proof.
  intros Hreach Hs Hpending.
  remember (chat_session.write_msgs_ s) as queue eqn:Hqueue.
  revert w s Hreach Hs Hpending Hqueue.
  induction queue as [|m rest IH]; intros w s Hreach Hs Hpending Hqueue.
  - destruct (write_completes cs _ _ _ (reachable_ok _ _ Hreach) Hs Hpending)
      as (m0 & rest0 & Hq & _). congruence.
  - destruct (write_completes cs _ _ _ (reachable_ok _ _ Hreach) Hs Hpending)
      as (m0 & rest0 & Hq & Hone & Hstep).
    rewrite Hq in Hqueue. injection Hqueue as <- <-.
    cbn [List.length replicate run]. rewrite Hstep.
    set (w1 := put_session p (write_popped s m rest) w).
    assert (sessions w1 !! p = Some (write_popped s m rest)) as Hs1
      by (unfold w1; by rewrite put_session_lookup, decide_True).
    destruct rest as [|m' rest].
    + exists w1, (write_popped s m []). cbn [List.length replicate run map].
      split; [done|]. split; [done|]. split; [done|]. split; [done|]. split; [done|].
      split; [done|]. intros q Hq'. unfold w1. by rewrite put_session_lookup, decide_False.
    + destruct (IH w1 (write_popped s m (m' :: rest)))
        as (w' & s' & Hrun & Hs' & Hwritten & Hempty & Hnone & Hroom & Hothers);
        [by eapply reachable_step | done | done | done |].
      exists w', s'. split; [done|]. split; [done|].
      split; [rewrite Hwritten; cbn; by rewrite <- app_assoc|].
      split; [done|]. split; [done|]. split; [by rewrite Hroom|].
      intros q Hq'. rewrite (Hothers q Hq'). unfold w1.
      by rewrite put_session_lookup, decide_False.
Qed.

(** C7.  [chat_session::deliver] appends the frame to the queue and starts
    a write exactly when the queue was empty before.  In every state the
    event loop reaches, a session has at most one write outstanding, and
    that write is of the frame at the front of its queue.  One handler run
    adds at most one frame to the written ones, the one that was at the
    front of the queue.  Over any run, the frames written followed by the
    frames still queued are the frames queued at the start followed by the
    frames delivered since, in call order.  The handler of a write that
    completed without error pops the front of the queue, which is the
    frame that went out, and starts the write of the next frame when there
    is one; after an error it pops nothing, starts nothing and calls
    [leave]; no write completes for a session that has none outstanding.
    As many completed writes as the queue has frames send the whole queue
    in its order and leave it empty, with no write outstanding. *)
Theorem write_loop_in_order :
  (forall msg s,
     chat_session.write_msgs_ (chat_session.deliver msg s) =
       chat_session.write_msgs_ s ++ [chat_message.of_string msg] /\
     writes (chat_session.socket_ (chat_session.deliver msg s)) =
       if bool_decide (chat_session.write_msgs_ s = [])
       then writes (chat_session.socket_ s) ++
            [chat_message.frame (chat_message.of_string msg)]
       else writes (chat_session.socket_ s)) /\
  (forall cs w p s,
     reachable cs w -> sessions w !! p = Some s ->
     (List.length (writes (chat_session.socket_ s)) <= 1)%nat /\
     (writes (chat_session.socket_ s) = [] \/
      exists m rest, chat_session.write_msgs_ s = m :: rest /\
                     writes (chat_session.socket_ s) = [chat_message.frame m])) /\
  (forall cs w ev w' p s,
     reachable cs w -> step cs w ev = Some w' -> sessions w !! p = Some s ->
     exists s',
       sessions w' !! p = Some s' /\
       (written (chat_session.socket_ s') = written (chat_session.socket_ s) \/
        exists m, head (chat_session.write_msgs_ s) = Some m /\
          written (chat_session.socket_ s') =
          written (chat_session.socket_ s) ++ [chat_message.frame m])) /\
  (forall cs w evs w' p s,
     reachable cs w -> run cs w evs = Some w' -> sessions w !! p = Some s ->
     exists s' texts sent,
       sessions w' !! p = Some s' /\
       written (chat_session.socket_ s') = written (chat_session.socket_ s) ++ sent /\
       sent ++ map chat_message.frame (chat_session.write_msgs_ s') =
         map chat_message.frame (chat_session.write_msgs_ s) ++
         map (fun text => chat_message.frame (chat_message.of_string text)) texts) /\
  (forall cs w p s,
     reachable cs w -> sessions w !! p = Some s ->
     writes (chat_session.socket_ s) ≠ [] ->
     exists m rest,
       chat_session.write_msgs_ s = m :: rest /\
       writes (chat_session.socket_ s) = [chat_message.frame m] /\
       step cs w (Written p success) = Some (put_session p (write_popped s m rest) w) /\
       step cs w (Written p failure) =
         Some (leave p (put_session p (write_dropped s) w))) /\
  (forall cs w p s ec,
     sessions w !! p = Some s -> writes (chat_session.socket_ s) = [] ->
     step cs w (Written p ec) = None) /\
  (forall cs w p s,
     reachable cs w -> sessions w !! p = Some s ->
     writes (chat_session.socket_ s) ≠ [] ->
     exists w' s',
       run cs w (replicate (List.length (chat_session.write_msgs_ s))
                           (Written p success)) = Some w' /\
       sessions w' !! p = Some s' /\
       written (chat_session.socket_ s') =
         written (chat_session.socket_ s) ++
         map chat_message.frame (chat_session.write_msgs_ s) /\
       chat_session.write_msgs_ s' = [] /\
       writes (chat_session.socket_ s') = [] /\
       room_ w' = room_ w /\
       forall q, q ≠ p -> sessions w' !! q = sessions w !! q).
Proof.
  split; [|split; [|split; [|split; [|split; [|split]]]]].
  - intros msg s. by rewrite deliver_unfold.
  - intros cs w p s Hreach Hs.
    destruct (reachable_ok _ _ Hreach) as [Hsess _].
    destruct (Hsess _ _ Hs) as [[_ Hwrites] _]. split; [|done].
    destruct Hwrites as [->|(m & rest & _ & ->)]; cbn; lia.
  - intros cs w ev w' p s Hreach Hstep Hs.
    destruct (outbound_server_step _ _ _ _ _ _ (reachable_ok _ _ Hreach) Hstep Hs)
      as (s' & _ & Hs' & _ & Hwritten).
    by exists s'.
  - intros cs w evs w' p s. apply outbound_server_run.
  - intros cs w p s Hreach Hs Hpending.
    destruct (write_completes cs _ _ _ (reachable_ok _ _ Hreach) Hs Hpending)
      as (m & rest & Hq & Hone & Hstep).
    exists m, rest. split; [done|]. split; [done|]. split; [done|].
    apply write_fails; [by eapply reachable_ok | done | done].
  - intros cs w p s ec. apply write_not_outstanding.
  - intros cs w p s. apply write_loop_drains.
Qed.

Lemma write_loop_in_order_witness :
  let w := after SignedChar bob_joins in
  let texts := [welcome "10001"; auth_passed;
                system_prefix +:+ ("bob" +:+ joined_suffix)] in
  reachable SignedChar w /\
  exists s,
    sessions w !! 1%nat = Some s /\
    chat_session.write_msgs_ s = map chat_message.of_string texts /\
    writes (chat_session.socket_ s) =
      [chat_message.frame (chat_message.of_string (welcome "10001"))] /\
    written (chat_session.socket_ s) = [] /\
    exists w' s',
      run SignedChar w [Written 1 success; Written 1 success; Written 1 success] =
        Some w' /\
      sessions w' !! 1%nat = Some s' /\
      written (chat_session.socket_ s') =
        map (fun text => chat_message.frame (chat_message.of_string text)) texts /\
      chat_session.write_msgs_ s' = [] /\
      writes (chat_session.socket_ s') = [].
Proof.
  cbv zeta.
  assert (reachable SignedChar (after SignedChar bob_joins)) as Hreach.
  { exists bob_joins. vm_compute. reflexivity. }
  split; [exact Hreach|].
  destruct (sessions (after SignedChar bob_joins) !! 1%nat) as [s|] eqn:Hs;
    [|vm_compute in Hs; discriminate].
  assert (chat_session.write_msgs_ s =
          map chat_message.of_string
            [welcome "10001"; auth_passed; system_prefix +:+ ("bob" +:+ joined_suffix)])
    as Hqueue by (vm_compute in Hs; injection Hs as <-; vm_compute; reflexivity).
  assert (writes (chat_session.socket_ s) =
          [chat_message.frame (chat_message.of_string (welcome "10001"))])
    as Hwrites by (vm_compute in Hs; injection Hs as <-; vm_compute; reflexivity).
  assert (written (chat_session.socket_ s) = [])
    as Hwritten by (vm_compute in Hs; injection Hs as <-; reflexivity).
  exists s. split; [reflexivity|]. split; [exact Hqueue|]. split; [exact Hwrites|].
  split; [exact Hwritten|].
  destruct write_loop_in_order as (_ & _ & _ & _ & _ & _ & Hdrain).
  destruct (Hdrain SignedChar _ 1%nat s Hreach Hs)
    as (w' & s' & Hrun & Hs' & Hsent & Hempty & Hnone & _); [by rewrite Hwrites|].
  rewrite Hqueue in Hrun, Hsent. rewrite Hwritten in Hsent.
  exists w', s'. split; [exact Hrun|]. split; [exact Hs'|].
  split; [rewrite Hsent; reflexivity|]. split; [exact Hempty | exact Hnone].
Defined.

End LoopClaims.

(** ** The statements at sample runs *)

Section Witnesses.

Local Abbreviation participants w := (chat_room.participants_ (room_ w)).
Local Abbreviation recent_msgs w := (chat_room.recent_msgs_ (room_ w)).

Lemma room_deliver_no_echo_witness :
  let w := after SignedChar bob_joins in
  let w' := room_deliver "hello" 1 w in
  2%nat ∈ participants w /\ 2%nat ≠ 1%nat /\
  participant_nickname 1 w +:+ says +:+ "hello" = "alice says: hello" /\
  sessions w' !! 2%nat =
    chat_session.deliver (participant_nickname 1 w +:+ says +:+ "hello")
      <$> sessions w !! 2%nat /\
  sessions w' !! 1%nat = sessions w !! 1%nat.
Proof.
  cbv zeta.
  assert (2%nat ∈ participants (after SignedChar bob_joins)) as Hin
    by (apply (bool_decide_unpack _); vm_compute; exact I).
  destruct (room_deliver_no_echo "hello" 1 (after SignedChar bob_joins))
    as (_ & Hsender & Hothers & _).
  split; [exact Hin|]. split; [discriminate|]. split; [vm_compute; reflexivity|].
  split; [apply Hothers; [exact Hin | discriminate] | exact Hsender].
Defined.

Lemma system_prompt_frame_witness :
  let w := after SignedChar bob_joins in
  let w' := system_prompt "notice" 2 w in
  1%nat ∈ participants w /\ 1%nat ≠ 2%nat /\
  room_ w' = room_ w /\
  sessions w' !! 1%nat =
    chat_session.deliver (system_prefix +:+ "notice") <$> sessions w !! 1%nat /\
  sessions w' !! 2%nat = sessions w !! 2%nat.
Proof.
  cbv zeta.
  assert (1%nat ∈ participants (after SignedChar bob_joins)) as Hin
    by (apply (bool_decide_unpack _); vm_compute; exact I).
  destruct (system_prompt_frame "notice" 2 (after SignedChar bob_joins))
    as (Hroom & Hblocked & Hothers & _).
  split; [exact Hin|]. split; [discriminate|]. split; [exact Hroom|].
  split; [apply Hothers; [exact Hin | discriminate] | exact Hblocked].
Defined.

Lemma leave_idempotent_witness :
  let w := after SignedChar bob_joins in
  size (participants w) = 2%nat /\
  size (participants (leave 2 (leave 2 w))) = 1%nat /\
  leave 2 (leave 2 w) = leave 2 w /\
  (3%nat ∉ participants w) /\ leave 3 w = w.
Proof.
  cbv zeta.
  assert (3%nat ∉ participants (after SignedChar bob_joins)) as Hout
    by (apply (bool_decide_unpack _); vm_compute; exact I).
  destruct (leave_idempotent 2 (after SignedChar bob_joins)) as (_ & Htwice & _ & _ & Hsize & _).
  destruct (leave_idempotent 3 (after SignedChar bob_joins)) as (Hnoop & _).
  split; [vm_compute; reflexivity|].
  split; [rewrite Hsize; vm_compute; reflexivity|].
  split; [exact Htwice|]. split; [exact Hout | exact (Hnoop Hout)].
Defined.

(** 101 bodies, pairwise distinct: the body [n] has [n] bytes. *)
Lemma history_bounded_witness :
  let msgs := map payload (seq 1 101) in
  let w := after SignedChar alice_joins in
  let w' := room_deliver_all msgs 1 w in
  List.length msgs = 101%nat /\ NoDup msgs /\ recent_msgs w = [] /\
  List.length (recent_msgs w') = 100%nat /\
  recent_msgs w' =
    map (fun msg => participant_nickname 1 w +:+ says +:+ msg) (map payload (seq 2 100)).
Proof.
  cbv zeta.
  destruct history_bounded as [_ Hrun].
  destruct (Hrun (map payload (seq 1 101)) 1%nat (after SignedChar alice_joins))
    as (_ & Hlen & Hrecent); [reflexivity | vm_compute; lia |].
  split; [reflexivity|].
  split; [apply (bool_decide_unpack _); vm_compute; exact I|].
  split; [vm_compute; reflexivity|]. split; [exact Hlen | exact Hrecent].
Defined.

Lemma join_replays_history_witness :
  let w0 := room_deliver "hello" 1 (after SignedChar alice_joins) in
  let w := put_session 2 chat_session.new w0 in
  recent_msgs w = ["alice says: hello"] /\
  sessions (join 2 w) !! 2%nat =
    deliver_list ["alice says: hello"; history_delimiter] <$> sessions w !! 2%nat /\
  sessions (join 2 w) !! 1%nat =
    chat_session.deliver
      (system_prefix +:+ (participant_nickname 2 w +:+ joined_suffix))
      <$> sessions w !! 1%nat.
Proof.
  cbv zeta.
  set (w := put_session 2 chat_session.new
              (room_deliver "hello" 1 (after SignedChar alice_joins))).
  assert (recent_msgs w = ["alice says: hello"]) as Hrecent by (vm_compute; reflexivity).
  destruct (join_replays_history 2 w) as (_ & _ & Hjoiner & _ & Hothers & _).
  split; [exact Hrecent|]. split.
  - rewrite Hjoiner, Hrecent. reflexivity.
  - apply Hothers; [discriminate|]. apply (bool_decide_unpack _). vm_compute. exact I.
Defined.

End Witnesses.

(** * Further properties *)

(** ** The header of any message *)

Section Header.

Import chat_message.

Implicit Types (m : t) (cs : char_sign).

(** [decode_header] looks at the first four bytes only. *)
Lemma header_value_first_four cs (a : list ascii) :
  header_value cs a = header_value cs [at_ a 0; at_ a 1; at_ a 2; at_ a 3].
Proof. unfold header_value, at_. cbn [nth]. reflexivity. Qed.

Lemma decode_header_first_four cs m :
  decode_header cs m =
  let '(m', ok) := decode_header cs (mk [at_ (data_ m) 0; at_ (data_ m) 1;
                                         at_ (data_ m) 2; at_ (data_ m) 3] 0) in
  (mk (data_ m) (body_length_ m'), ok).
Proof.
  unfold decode_header. cbn [data_]. rewrite (header_value_first_four cs (data_ m)).
  generalize (header_value cs [at_ (data_ m) 0; at_ (data_ m) 1; at_ (data_ m) 2; at_ (data_ m) 3]).
  intros n. destruct (n >? max_body_length); reflexivity.
Qed.

Lemma declared_length_range m : 0 <= declared_length m < 2 ^ 32.
Proof.
  unfold declared_length, be32.
  pose proof (byte_val_range (at_ (data_ m) 0)). pose proof (byte_val_range (at_ (data_ m) 1)).
  pose proof (byte_val_range (at_ (data_ m) 2)). pose proof (byte_val_range (at_ (data_ m) 3)).
  lia.
Qed.

(** X1.  Whatever the signedness of [char], [decode_header] refuses every
    message whose header bytes declare more than 512: it returns [false],
    resets [body_length_] to 0 and leaves [data_] as it is. *)
Theorem decode_header_oversized_refused cs m :
  declared_length m > max_body_length ->
  decode_header cs m = (mk (data_ m) 0, false).
Proof.
  intros Hbig. rewrite decode_header_first_four.
  rewrite decode_header_refuses_oversized by exact Hbig. reflexivity.
Qed.

Lemma decode_header_oversized_refused_witness :
  let m := mk (store 0 oversized_header fresh_data) 7 in
  declared_length m = 513 /\
  decode_header SignedChar m = (mk (data_ m) 0, false) /\
  decode_header UnsignedChar m = (mk (data_ m) 0, false).
Proof.
  cbv zeta. split; [vm_compute; reflexivity|].
  split; apply decode_header_oversized_refused; vm_compute; reflexivity.
Defined.

(** X2.  With an unsigned [char], [decode_header] accepts a message exactly
    when its header bytes declare at most 512, and then sets
    [body_length_] to the declared length; [data_] is never changed. *)
Theorem decode_header_unsigned_exact m :
  decode_header UnsignedChar m =
  if declared_length m >? max_body_length
  then (mk (data_ m) 0, false)
  else (mk (data_ m) (declared_length m), true).
Proof.
  rewrite decode_header_first_four, decode_header_unsigned.
  fold (declared_length m). generalize (declared_length m). intros n.
  destruct (n >? max_body_length); reflexivity.
Qed.

Lemma decode_header_signed_any m :
  decode_header SignedChar m =
  if (declared_length m >? max_body_length)
     || (128 <=? Z.of_N (N_of_ascii (at_ (data_ m) 0)))
     || (128 <=? Z.of_N (N_of_ascii (at_ (data_ m) 1)))
     || (128 <=? Z.of_N (N_of_ascii (at_ (data_ m) 2)))
     || (128 <=? Z.of_N (N_of_ascii (at_ (data_ m) 3)))
  then (mk (data_ m) 0, false)
  else (mk (data_ m) (declared_length m), true).
Proof.
  rewrite decode_header_first_four, decode_header_signed.
  fold (declared_length m).
  match goal with |- context [if ?b then _ else _] => generalize b end.
  generalize (declared_length m). intros n b. destruct b; reflexivity.
Qed.

Lemma header_bytes_low_spec m :
  header_bytes_low m <->
  (128 <=? Z.of_N (N_of_ascii (at_ (data_ m) 0))) = false /\
  (128 <=? Z.of_N (N_of_ascii (at_ (data_ m) 1))) = false /\
  (128 <=? Z.of_N (N_of_ascii (at_ (data_ m) 2))) = false /\
  (128 <=? Z.of_N (N_of_ascii (at_ (data_ m) 3))) = false.
Proof.
  unfold header_bytes_low. rewrite !Z.leb_gt. split.
  - intros H. repeat split; apply H; lia.
  - intros (H0 & H1 & H2 & H3) i Hi.
    destruct i as [|[|[|[|i]]]]; [assumption..|lia].
Qed.

(** X3.  With a signed [char], [decode_header] accepts a message exactly
    when its header bytes declare at most 512 and each of them is below
    0x80; it then sets [body_length_] to the declared length, and
    otherwise to 0; [data_] is never changed. *)
Theorem decode_header_signed_exact m :
  (snd (decode_header SignedChar m) = true <->
   declared_length m <= max_body_length /\ header_bytes_low m) /\
  fst (decode_header SignedChar m) =
    mk (data_ m) (if snd (decode_header SignedChar m) then declared_length m else 0).
Proof.
  rewrite decode_header_signed_any, header_bytes_low_spec.
  destruct (Z.gtb_spec (declared_length m) max_body_length) as [Hgt|Hle].
  - cbn [orb fst snd]. split; [|reflexivity]. split; [discriminate | lia].
  - cbn [orb].
    destruct (128 <=? Z.of_N (N_of_ascii (at_ (data_ m) 0)));
      destruct (128 <=? Z.of_N (N_of_ascii (at_ (data_ m) 1)));
      destruct (128 <=? Z.of_N (N_of_ascii (at_ (data_ m) 2)));
      destruct (128 <=? Z.of_N (N_of_ascii (at_ (data_ m) 3)));
      cbn [orb fst snd]; (split; [|reflexivity]);
      (split; [try discriminate; intros _; repeat split; assumption
              | try reflexivity; intros (_ & H0 & H1 & H2 & H3); discriminate]).
Qed.

End Header.

(** ** Messages built from strings, and the class invariant *)

Section Messages.

Import chat_message.

Implicit Types (m : t) (cs : char_sign) (msg : string).

(** X4.  The header [encode_header] writes for any string is read back by
    [decode_header] with an unsigned [char], which leaves the message as
    it is; with a signed [char] it is read back exactly when the low byte
    of the length is below 0x80, and refused otherwise.  The length is the
    size of the string, at most 512. *)
Theorem header_round_trip msg :
  body_length_ (of_string msg) = Z.min (Z.of_nat (String.length msg)) max_body_length /\
  decode_header UnsignedChar (of_string msg) = (of_string msg, true) /\
  decode_header SignedChar (of_string msg) =
    if 128 <=? body_length_ (of_string msg) mod 256
    then (mk (data_ (of_string msg)) 0, false)
    else (of_string msg, true).
Proof.
  split; [apply of_string_body_length|].
  split; [apply roundtrip_unsigned | apply roundtrip_signed].
Qed.

Lemma declared_length_of_string msg :
  declared_length (of_string msg) = body_length_ (of_string msg).
Proof.
  destruct (of_string_encoded msg) as [d Hd].
  pose proof (of_string_body_length msg) as Hlen. unfold max_body_length in Hlen.
  set (n := body_length_ (of_string msg)) in *. rewrite Hd.
  unfold declared_length. rewrite encode_header_data. unfold at_. cbn [nth body_length_].
  apply be32_encode. lia.
Qed.

Lemma of_string_body_take msg :
  body (of_string msg) = take (Nat.min (String.length msg) 512) (list_ascii_of_string msg).
Proof.
  pose proof (of_string_body_length msg) as Hlen. unfold max_body_length in Hlen.
  rewrite of_string_body. f_equal. lia.
Qed.

Lemma of_string_frame_length msg :
  List.length (frame (of_string msg)) = (4 + Nat.min (String.length msg) 512)%nat.
Proof.
  rewrite of_string_frame, length_app, of_string_header_length, of_string_body_take.
  rewrite length_take, length_list_ascii_of_string. unfold header_length. lia.
Qed.

Lemma body_of_short msg :
  (String.length msg <= 512)%nat -> body (of_string msg) = list_ascii_of_string msg.
Proof.
  intros Hshort. rewrite of_string_body_take. apply take_ge.
  rewrite length_list_ascii_of_string. lia.
Qed.

(** X5.  The frame of the message built from a string is the four header
    bytes, whose big-endian value is the number of body bytes, followed by
    the first [min (size, 512)] bytes of the string; a string of at most
    512 bytes is read back whole from [body()] and [body_length()]. *)
Theorem frame_layout msg :
  let n := Nat.min (String.length msg) 512 in
  frame (of_string msg) = header (of_string msg) ++ take n (list_ascii_of_string msg) /\
  List.length (header (of_string msg)) = 4%nat /\
  List.length (frame (of_string msg)) = (4 + n)%nat /\
  declared_length (of_string msg) = Z.of_nat n /\
  ((String.length msg <= 512)%nat ->
   string_of_list_ascii (body (of_string msg)) = msg).
Proof.
  intros n. pose proof (of_string_body_length msg) as Hlen. unfold max_body_length in Hlen.
  split; [by rewrite of_string_frame, of_string_body_take|].
  split; [apply of_string_header_length|].
  split; [apply of_string_frame_length|].
  split; [rewrite declared_length_of_string; unfold n; lia|].
  intros Hshort. rewrite body_of_short by done.
  apply string_of_list_ascii_of_string.
Qed.

Lemma frame_layout_witness :
  (String.length "hello" <= 512)%nat /\
  string_of_list_ascii (body (of_string "hello")) = "hello" /\
  frame (of_string "hello") =
    ["000"; "000"; "000"; "005"; "h"; "e"; "l"; "l"; "o"]%char.
Proof.
  assert (String.length "hello" <= 512)%nat as Hshort by (cbn; lia).
  destruct (frame_layout "hello") as (Hframe & _ & _ & _ & Hback).
  split; [exact Hshort|]. split; [exact (Hback Hshort)|].
  rewrite Hframe. vm_compute. reflexivity.
Defined.

Lemma store_length (off : nat) (src a : list ascii) :
  (off + List.length src <= List.length a)%nat ->
  List.length (store off src a) = List.length a.
Proof.
  intros Hfit. unfold store. rewrite !length_app, length_take, length_drop. lia.
Qed.

Lemma msg_ok_default : msg_ok default.
Proof. split; [cbn; unfold max_body_length; lia | reflexivity]. Qed.

Lemma msg_ok_of_string msg : msg_ok (of_string msg).
Proof.
  split; [rewrite of_string_body_length; unfold max_body_length; lia|].
  apply of_string_data_length.
Qed.

Lemma msg_ok_encode_header m : msg_ok m -> msg_ok (encode_header m).
Proof.
  intros [Hlen Hdata]. split; [exact Hlen|].
  unfold encode_header. cbn [data_]. rewrite store_length; [exact Hdata|].
  rewrite Hdata. unfold data_size, header_length, max_body_length. cbn. lia.
Qed.

Lemma msg_ok_decode_header cs m :
  List.length (data_ m) = data_size -> msg_ok (fst (decode_header cs m)).
Proof.
  intros Hdata. unfold decode_header.
  assert (0 <= header_value cs (data_ m)) as Hpos.
  { unfold header_value, to_size_t. apply Z.mod_pos_bound. lia. }
  revert Hpos. generalize (header_value cs (data_ m)). intros n Hpos.
  destruct (Z.gtb_spec n max_body_length); cbn [fst];
    (split; [cbn [body_length_]; unfold max_body_length in *; lia | exact Hdata]).
Qed.

Lemma msg_ok_set_body_length n m :
  List.length (data_ m) = data_size -> msg_ok (set_body_length n m).
Proof.
  intros Hdata. unfold set_body_length.
  assert (0 <= to_size_t n) as Hpos by (unfold to_size_t; apply Z.mod_pos_bound; lia).
  revert Hpos. generalize (to_size_t n). intros k Hpos.
  split; [|exact Hdata]. cbn [body_length_].
  destruct (Z.gtb_spec k max_body_length); unfold max_body_length in *; lia.
Qed.

Lemma msg_ok_store_header (bytes : list ascii) m :
  msg_ok m ->
  msg_ok (mk (store 0 (take header_length bytes) (data_ m)) (body_length_ m)).
Proof.
  intros [Hlen Hdata]. split; [exact Hlen|]. cbn [data_].
  rewrite store_length; [exact Hdata|].
  rewrite length_take, Hdata. unfold data_size, header_length, max_body_length.
  change (Z.to_nat 512) with 512%nat. lia.
Qed.

Lemma msg_ok_store_body (bytes : list ascii) m :
  msg_ok m ->
  msg_ok (mk (store header_length (take (Z.to_nat (body_length m)) bytes) (data_ m))
             (body_length_ m)).
Proof.
  intros [Hlen Hdata]. split; [exact Hlen|]. cbn [data_].
  rewrite store_length; [exact Hdata|].
  rewrite length_take, Hdata.
  unfold body_length, data_size, header_length, max_body_length in *.
  change (Z.to_nat 512) with 512%nat. lia.
Qed.

(** X6.  The class invariant of [chat_message] (the body length is
    between 0 and 512, [data_] has its 516 bytes) holds for both
    constructors and is kept by [encode_header], [decode_header],
    [body_length(n)] and by a read of [body_length()] bytes into [body()];
    under it [length()] is at most the size of [data_]. *)
Theorem msg_ok_kept :
  msg_ok default /\
  (forall msg, msg_ok (of_string msg)) /\
  (forall m, msg_ok m -> msg_ok (encode_header m)) /\
  (forall cs m, msg_ok m -> msg_ok (fst (decode_header cs m))) /\
  (forall n m, msg_ok m -> msg_ok (set_body_length n m)) /\
  (forall bytes m, msg_ok m ->
     msg_ok (mk (store header_length (take (Z.to_nat (body_length m)) bytes) (data_ m))
                (body_length_ m))) /\
  (forall m, msg_ok m -> 0 <= length m <= Z.of_nat (List.length (data_ m))).
Proof.
  split; [apply msg_ok_default|]. split; [apply msg_ok_of_string|].
  split; [apply msg_ok_encode_header|].
  split; [intros cs m [_ Hdata]; by apply msg_ok_decode_header|].
  split; [intros n m [_ Hdata]; by apply msg_ok_set_body_length|].
  split; [intros bytes m; apply msg_ok_store_body|].
  intros m [Hlen Hdata]. rewrite Hdata.
  unfold length, data_size, header_length, max_body_length in *. lia.
Qed.

End Messages.

(** ** The handlers, session by session *)

Section Handlers.

Implicit Types (w : server) (p q : nat) (s : chat_session.t) (ev : event).

Local Abbreviation participants w := (chat_room.participants_ (room_ w)).
Local Abbreviation recent_msgs w := (chat_room.recent_msgs_ (room_ w)).
Local Abbreviation room_name w := (chat_room.room_name_ (room_ w)).

Lemma room_deliver_recent msg sender w :
  recent_msgs (room_deliver msg sender w) =
  pop_while_over (recent_msgs w ++ [participant_nickname sender w +:+ says +:+ msg]).
Proof. by rewrite room_deliver_room. Qed.

(** What the handler of a read or a write does to its own session and to
    the room. *)
Lemma step_own cs w ev w' :
  step cs w ev = Some w' ->
  (exists ec p, ev = Accepted ec p) \/
  exists s s1 texts,
    sessions w !! session_of ev = Some s /\ handler_step cs s s1 /\
    sessions w' !! session_of ev = Some (deliver_list texts s1) /\
    room_name w' = room_name w /\
    (recent_msgs w' = recent_msgs w \/
     exists text, recent_msgs w' = pop_while_over (recent_msgs w ++ [text])) /\
    (participants w' = participants w \/
     participants w' = participants w ∖ {[session_of ev]} \/
     (participants w' = {[session_of ev]} ∪ participants w /\
      chat_session.state_ s1 = chat_session.AUTHED)).
Proof.
  destruct ev as [ec p|p ec bytes|p ec bytes|p ec]; cbn [step session_of];
    [intros _; left; by eexists _, _|..]; intros Hstep; right.
  - (* the header handler *)
    unfold on_read_header in Hstep.
    destruct (sessions w !! p) as [s|] eqn:Hp; [|done].
    destruct (reads (chat_session.socket_ s)) as [|[] rest] eqn:Hreads; try done.
    set (s1 := read_completed 0 (take chat_message.header_length bytes) s) in *.
    exists s. destruct ec.
    + destruct (chat_message.decode_header cs (chat_session.read_msg_ s1)) as [m ok] eqn:Hdec.
      destruct ok; injection Hstep as <-.
      * exists (chat_session.do_read_body (set_read_msg m s1)), [].
        split; [done|]. split; [by eapply hs_header_accepted|].
        rewrite put_session_lookup, decide_True by done. repeat split; auto.
      * exists (set_read_msg m s1), [].
        split; [done|]. split; [by eapply hs_header_refused|].
        rewrite leave_sessions, put_session_lookup, decide_True by done.
        repeat split; auto.
    + injection Hstep as <-. exists s1, [].
      split; [done|]. split; [by eapply hs_header_failed|].
      rewrite leave_sessions, put_session_lookup, decide_True by done.
      repeat split; auto.
  - (* the body handler *)
    unfold on_read_body in Hstep.
    destruct (sessions w !! p) as [s|] eqn:Hp; [|done].
    destruct (reads (chat_session.socket_ s)) as [|[] rest] eqn:Hreads; try done.
    set (n := Z.to_nat (chat_message.body_length (chat_session.read_msg_ s))) in *.
    set (s1 := read_completed chat_message.header_length (take n bytes) s) in *.
    exists s. destruct ec; injection Hstep as <-.
    + destruct (chat_session.state_ s) eqn:Hst; cbv beta iota zeta.
      * set (s2 := chat_session.mk _ chat_session.AUTHED _ _ _).
        exists (chat_session.do_read_header s2), (auth_passed :: replayed (recent_msgs w)).
        split; [done|]. split; [by eapply hs_named|]. split; [|split; [|split]].
        -- rewrite on_session_lookup, decide_True, join_lookup, decide_True by done.
           rewrite participant_deliver_lookup, decide_True by done.
           rewrite put_session_lookup, decide_True by done. cbn [fmap option_fmap option_map].
           f_equal. rewrite do_read_header_deliver_list, do_read_header_deliver. done.
        -- unfold on_session. cbn [room_]. by rewrite join_room.
        -- left. unfold on_session. cbn [room_]. by rewrite join_room.
        -- right; right. unfold on_session. cbn [room_]. by rewrite join_room.
      * exists (chat_session.do_read_header s1), [].
        split; [done|]. split; [eapply hs_relayed; [done | congruence]|].
        split; [|split; [|split]].
        -- rewrite on_session_lookup, decide_True, room_deliver_lookup by done.
           rewrite decide_False by (by intros [_ ?]).
           by rewrite put_session_lookup, decide_True.
        -- unfold on_session. cbn [room_]. by rewrite room_deliver_room.
        -- right. unfold on_session. cbn [room_]. rewrite room_deliver_room. by eexists.
        -- left. unfold on_session. cbn [room_]. by rewrite room_deliver_room.
      * exists (chat_session.do_read_header s1), [].
        split; [done|]. split; [eapply hs_relayed; [done | congruence]|].
        split; [|repeat split; auto].
        by rewrite on_session_lookup, decide_True, put_session_lookup, decide_True.
    + exists s1, []. split; [done|]. split; [by eapply hs_body_failed|].
      rewrite leave_sessions, put_session_lookup, decide_True by done.
      repeat split; auto.
  - (* the write handler *)
    unfold on_write in Hstep.
    destruct (sessions w !! p) as [s|] eqn:Hp; [|done].
    destruct (writes (chat_session.socket_ s)) as [|buf rest] eqn:Hwrites; [done|].
    exists s. destruct ec; injection Hstep as <-.
    + eexists _, []. split; [done|]. split; [by eapply hs_written|].
      rewrite put_session_lookup, decide_True by done. repeat split; auto.
    + eexists _, []. split; [done|]. split; [by eapply hs_write_failed|].
      rewrite leave_sessions, put_session_lookup, decide_True by done.
      repeat split; auto.
Qed.


Lemma handler_session_step cs s s' : handler_step cs s s' -> session_step s s'.
Proof.
  intros Hstep.
  destruct Hstep as [s rest bytes m Hr s1 Hdec|s rest bytes m Hr s1 Hdec|s rest bytes Hr
                     |s rest bytes Hr Hst n s1|s rest bytes Hr Hst n|s rest bytes Hr n
                     |s buf rest Hw|s buf rest Hw].
  - by eapply ss_header_accepted.
  - by eapply ss_header_refused.
  - set (s1 := read_completed 0 (take chat_message.header_length bytes) s).
    by apply (ss_header_refused s rest (take chat_message.header_length bytes)
                (chat_session.read_msg_ s1)).
  - eapply ss_body_read; eauto.
  - set (s1 := read_completed chat_message.header_length (take n bytes) s).
    apply (ss_body_read s rest (take n bytes) (chat_session.state_ s1)
             (chat_session.nickname_ s1)); [done | by right].
  - by eapply ss_body_failed.
  - by eapply ss_written.
  - by eapply ss_write_failed.
Qed.

(** One handler run, case by case: nothing changes (an accept that
    failed); a session is added in its start state; or the session of the
    event takes its handler step and is then delivered texts, and every
    other session is only delivered texts. *)
Lemma step_cases cs w ev w' :
  step cs w ev = Some w' ->
  w' = w \/
  (ev = Accepted success (session_of ev) /\ sessions w !! session_of ev = None /\
   room_ w' = room_ w /\
   sessions w' =
     <[session_of ev :=
         chat_session.do_read_header
           (chat_session.deliver (welcome (room_name w)) chat_session.new)]>
       (sessions w)) \/
  exists s s1 texts,
    sessions w !! session_of ev = Some s /\ handler_step cs s s1 /\
    sessions w' !! session_of ev = Some (deliver_list texts s1) /\
    room_name w' = room_name w /\
    (recent_msgs w' = recent_msgs w \/
     exists text, recent_msgs w' = pop_while_over (recent_msgs w ++ [text])) /\
    (participants w' = participants w \/
     participants w' = participants w ∖ {[session_of ev]} \/
     (participants w' = {[session_of ev]} ∪ participants w /\
      chat_session.state_ s1 = chat_session.AUTHED)) /\
    forall q, q ≠ session_of ev ->
      exists texts', sessions w' !! q = deliver_list texts' <$> sessions w !! q.
Proof.
  intros Hstep.
  destruct (step_shape _ _ _ _ Hstep)
    as [->|[(p & -> & Hfresh & Hroom & Hnew)
           |(p & s & s1 & texts & Hp & Hs & Hp' & Hev & Hpart & Hothers)]].
  - by left.
  - right; left. by cbn [session_of].
  - right; right.
    destruct (step_own _ _ _ _ Hstep) as [(ec & p0 & ->)|Hown]; [done|].
    assert (session_of ev = p) as Hsame by (destruct ev; cbn in *; done).
    destruct Hown as (s0 & s10 & texts0 & H1 & H2 & H3 & H4 & H5 & H6).
    exists s0, s10, texts0. rewrite Hsame in *. repeat (split; [done|]). exact Hothers.
Qed.

End Handlers.

(** ** Properties that hold from a state on *)

Section Stable.

Context (cs : char_sign) (P : chat_session.t -> Prop).

Hypothesis P_deliver : forall text s, P s -> P (chat_session.deliver text s).
Hypothesis P_handler :
  forall s s', handler_step cs s s' -> session_ok s -> P s -> P s'.

Lemma stable_deliver_list texts s : P s -> P (deliver_list texts s).
Proof.
  revert s. induction texts as [|text texts IH]; intros s Hs; [done|].
  cbn. apply IH. by apply P_deliver.
Qed.

Lemma stable_step w ev w' p s :
  server_ok w -> step cs w ev = Some w' -> sessions w !! p = Some s -> P s ->
  exists s', sessions w' !! p = Some s' /\ P s'.
Proof.
  intros [Hsess _] Hstep Hs HP.
  destruct (step_cases _ _ _ _ Hstep)
    as [->|[(Hev & Hfresh & Hroom & Hnew)
           |(s0 & s1 & texts & Hp & Hs0 & Hp' & _ & _ & _ & Hothers)]].
  - by exists s.
  - exists s. split; [|done]. rewrite Hnew, lookup_insert_ne; [done | congruence].
  - destruct (decide (p = session_of ev)) as [->|Hne].
    + simplify_eq. eexists. split; [done|]. apply stable_deliver_list.
      eapply P_handler; [done | by eapply Hsess | done].
    + destruct (Hothers p Hne) as [texts' Heq]. rewrite Hs in Heq.
      eexists. split; [done|]. by apply stable_deliver_list.
Qed.

Lemma stable_run evs w w' p s :
  reachable cs w -> run cs w evs = Some w' -> sessions w !! p = Some s -> P s ->
  exists s', sessions w' !! p = Some s' /\ P s'.
Proof.
  revert w s. induction evs as [|ev evs IH]; intros w s Hreach; cbn [run].
  - intros [= <-] Hs HP. by exists s.
  - destruct (step cs w ev) as [w1|] eqn:Hstep; [|done]. intros Hrun Hs HP.
    destruct (stable_step _ _ _ _ _ (reachable_ok _ _ Hreach) Hstep Hs HP)
      as (s1 & Hs1 & HP1).
    eapply IH; [by eapply reachable_step | done | done | done].
Qed.

End Stable.

(** ** Invariants of the server, and what lasts *)

Section ServerInvariants.

Implicit Types (w : server) (p q : nat) (s : chat_session.t) (ev : event).

Local Abbreviation participants w := (chat_room.participants_ (room_ w)).
Local Abbreviation recent_msgs w := (chat_room.recent_msgs_ (room_ w)).
Local Abbreviation room_name w := (chat_room.room_name_ (room_ w)).

(** X7.  A handler run of one session changes another session only by
    calls of [deliver]: its state, nickname, read buffer, outstanding read
    and written frames are as before, and its queue is the old queue
    followed by the delivered frames. *)
Theorem other_sessions_only_delivered cs w ev w' q s :
  step cs w ev = Some w' -> q ≠ session_of ev -> sessions w !! q = Some s ->
  exists s' texts,
    sessions w' !! q = Some s' /\ s' = deliver_list texts s /\
    chat_session.state_ s' = chat_session.state_ s /\
    chat_session.nickname_ s' = chat_session.nickname_ s /\
    chat_session.read_msg_ s' = chat_session.read_msg_ s /\
    reads (chat_session.socket_ s') = reads (chat_session.socket_ s) /\
    written (chat_session.socket_ s') = written (chat_session.socket_ s) /\
    chat_session.write_msgs_ s' =
      chat_session.write_msgs_ s ++ map chat_message.of_string texts.
Proof.
  intros Hstep Hne Hs.
  assert (exists texts, sessions w' !! q = Some (deliver_list texts s)) as [texts Hq].
  { destruct (step_cases _ _ _ _ Hstep)
      as [->|[(Hev & Hfresh & Hroom & Hnew)|(s0 & s1 & texts & _ & _ & _ & _ & _ & _ & Hothers)]].
    - by exists [].
    - exists []. by rewrite Hnew, lookup_insert_ne.
    - destruct (Hothers q Hne) as [texts' Heq]. rewrite Hs in Heq. by exists texts'. }
  exists (deliver_list texts s), texts. split; [done|]. split; [done|].
  split; [apply deliver_list_state|]. split; [apply deliver_list_nickname|].
  split; [|split; [apply deliver_list_reads|split;
                   [apply deliver_list_written | apply deliver_list_write_msgs]]].
  clear. revert s. induction texts as [|text texts IH]; intros s; [done|].
  cbn. fold (deliver_list texts (chat_session.deliver text s)).
  by rewrite IH, deliver_unfold.
Qed.

Lemma other_sessions_only_delivered_witness :
  let w := after SignedChar bob_joins in
  let ev := HeaderRead 1 success oversized_header in
  exists w' s s',
    step SignedChar w ev = Some w' /\ sessions w !! 2%nat = Some s /\
    sessions w' !! 2%nat = Some s' /\
    chat_session.nickname_ s' = chat_session.nickname_ s.
Proof.
  cbv zeta.
  destruct (step SignedChar (after SignedChar bob_joins)
              (HeaderRead 1 success oversized_header)) as [w'|] eqn:Hstep;
    [|vm_compute in Hstep; discriminate].
  destruct (sessions (after SignedChar bob_joins) !! 2%nat) as [s|] eqn:Hs;
    [|vm_compute in Hs; discriminate].
  destruct (other_sessions_only_delivered SignedChar _ _ _ 2%nat s Hstep)
    as (s' & texts & Hs' & _ & _ & Hnick & _); [cbn; lia | exact Hs |].
  exists w', s, s'. split; [reflexivity|]. split; [reflexivity|]. by split.
Defined.

(** *** The room *)

Lemma room_step cs w ev w' :
  step cs w ev = Some w' ->
  room_name w' = room_name w /\
  (recent_msgs w' = recent_msgs w \/
   exists text, recent_msgs w' = pop_while_over (recent_msgs w ++ [text])).
Proof.
  intros Hstep.
  destruct (step_cases _ _ _ _ Hstep)
    as [->|[(Hev & Hfresh & Hroom & Hnew)|(s0 & s1 & texts & _ & _ & _ & Hname & Hrecent & _)]].
  - by split; [|left].
  - rewrite Hroom. by split; [|left].
  - by split.
Qed.

Lemma reachable_room_name cs w : reachable cs w -> room_name w = "10001".
Proof.
  intros [evs Hrun].
  assert (forall evs w0 w1, run cs w0 evs = Some w1 -> room_name w1 = room_name w0) as Hind.
  { clear. induction evs as [|ev evs IH]; intros w0 w1; cbn [run].
    - by intros [= <-].
    - destruct (step cs w0 ev) as [w2|] eqn:Hstep; [|done]. intros Hrun.
      rewrite (IH _ _ Hrun). apply (room_step _ _ _ _ Hstep). }
  by rewrite (Hind _ _ _ Hrun).
Qed.

(** X8.  In every state the event loop reaches, the room has the name the
    server gave it, "10001", and its history holds at most 100 entries. *)
Theorem room_name_and_history_bound cs w :
  reachable cs w ->
  room_name w = "10001" /\ (List.length (recent_msgs w) <= chat_room.max_recent_msgs)%nat.
Proof.
  intros [evs Hrun].
  assert (forall evs w0 w1, run cs w0 evs = Some w1 ->
            room_name w0 = "10001" /\
            (List.length (recent_msgs w0) <= chat_room.max_recent_msgs)%nat ->
            room_name w1 = "10001" /\
            (List.length (recent_msgs w1) <= chat_room.max_recent_msgs)%nat) as Hind.
  { clear. induction evs as [|ev evs IH]; intros w0 w1; cbn [run].
    - by intros [= <-].
    - destruct (step cs w0 ev) as [w2|] eqn:Hstep; [|done]. intros Hrun [Hname Hlen].
      apply (IH _ _ Hrun). destruct (room_step _ _ _ _ Hstep) as [Hname' Hrecent].
      split; [congruence|].
      destruct Hrecent as [->|[text ->]]; [done | apply pop_while_over_length]. }
  apply (Hind _ _ _ Hrun). split; [done | cbn; unfold chat_room.max_recent_msgs; lia].
Qed.

Lemma room_name_and_history_bound_witness :
  reachable SignedChar (after SignedChar bob_joins) /\
  room_name (after SignedChar bob_joins) = "10001".
Proof.
  assert (reachable SignedChar (after SignedChar bob_joins)) as Hreach
    by (exists bob_joins; vm_compute; reflexivity).
  split; [exact Hreach|]. exact (proj1 (room_name_and_history_bound _ _ Hreach)).
Defined.

End ServerInvariants.

(** ** Properties of every session of a reachable state *)

Section Everywhere.

Context (cs : char_sign) (P : chat_session.t -> Prop).

Hypothesis P_started :
  P (chat_session.do_read_header
       (chat_session.deliver (welcome "10001") chat_session.new)).
Hypothesis P_deliver : forall text s, P s -> P (chat_session.deliver text s).
Hypothesis P_handler :
  forall s s', handler_step cs s s' -> session_ok s -> P s -> P s'.

Lemma everywhere_run evs w w' :
  reachable cs w -> run cs w evs = Some w' ->
  (forall p s, sessions w !! p = Some s -> P s) ->
  forall p s, sessions w' !! p = Some s -> P s.
Proof.
  revert w. induction evs as [|ev evs IH]; intros w Hreach; cbn [run].
  - by intros [= <-].
  - destruct (step cs w ev) as [w1|] eqn:Hstep; [|done]. intros Hrun Hall.
    apply (IH w1 (reachable_step _ _ _ _ Hreach Hstep) Hrun).
    intros p s Hs.
    destruct (sessions w !! p) as [s0|] eqn:Hs0.
    + destruct (stable_step cs P P_deliver P_handler _ _ _ _ _
                  (reachable_ok _ _ Hreach) Hstep Hs0 (Hall _ _ Hs0)) as (s' & Hs' & HP).
      congruence.
    + destruct (step_cases _ _ _ _ Hstep)
        as [->|[(Hev & Hfresh & Hroom & Hnew)
               |(s0 & s1 & texts & Hp & _ & _ & _ & _ & _ & Hothers)]].
      * congruence.
      * rewrite Hnew in Hs. destruct (decide (session_of ev = p)) as [<-|Hne].
        -- rewrite lookup_insert_eq in Hs. injection Hs as <-.
           by rewrite (reachable_room_name _ _ Hreach).
        -- rewrite lookup_insert_ne in Hs by done. congruence.
      * destruct (decide (p = session_of ev)) as [->|Hne]; [congruence|].
        destruct (Hothers p Hne) as [texts' Heq]. rewrite Hs0 in Heq. cbn in Heq. congruence.
Qed.

Lemma everywhere w p s : reachable cs w -> sessions w !! p = Some s -> P s.
Proof.
  intros [evs Hrun]. eapply everywhere_run; [by exists [] | done |].
  intros p0 s0 H. cbn in H. by rewrite lookup_empty in H.
Qed.

End Everywhere.

Section SessionInvariants.

Implicit Types (w : server) (p q : nat) (s : chat_session.t) (ev : event).

Local Abbreviation participants w := (chat_room.participants_ (room_ w)).

Lemma session_msgs_ok_deliver text s :
  session_msgs_ok s -> session_msgs_ok (chat_session.deliver text s).
Proof.
  intros [Hread Hqueue]. rewrite deliver_unfold. split; [done|]. cbn.
  apply Forall_app. split; [done|]. constructor; [apply msg_ok_of_string | done].
Qed.

Lemma session_msgs_ok_handler cs s s' :
  handler_step cs s s' -> session_msgs_ok s -> session_msgs_ok s'.
Proof.
  intros Hstep [Hread Hqueue].
  destruct Hstep as [s rest bytes m Hr s1 Hdec|s rest bytes m Hr s1 Hdec|s rest bytes Hr
                     |s rest bytes Hr Hst n s1|s rest bytes Hr Hst n|s rest bytes Hr n
                     |s buf rest Hw|s buf rest Hw].
  - split; [|done]. cbn.
    pose proof (msg_ok_store_header bytes _ Hread) as Hstored.
    replace m with (fst (chat_message.decode_header cs (chat_session.read_msg_ s1)))
      by (by rewrite Hdec).
    apply msg_ok_decode_header. apply Hstored.
  - split; [|done]. cbn.
    pose proof (msg_ok_store_header bytes _ Hread) as Hstored.
    replace m with (fst (chat_message.decode_header cs (chat_session.read_msg_ s1)))
      by (by rewrite Hdec).
    apply msg_ok_decode_header. apply Hstored.
  - split; [|done]. cbn. by apply msg_ok_store_header.
  - split; [|done]. cbn. by apply msg_ok_store_body.
  - split; [|done]. cbn. by apply msg_ok_store_body.
  - split; [|done]. cbn. by apply msg_ok_store_body.
  - assert (Forall msg_ok (tail (chat_session.write_msgs_ s))) as Htail
      by (destruct (chat_session.write_msgs_ s); [done | by inversion Hqueue]).
    cbn. case_bool_decide; [done|]. unfold chat_session.do_write. cbn.
    by destruct (tail (chat_session.write_msgs_ s)).
  - done.
Qed.

(** X9.  In every state the event loop reaches, the read buffer of every
    session and every message in its queue keep the invariant of
    [chat_message]: the body length is between 0 and 512 and [data_] has
    its 516 bytes, so a body read of [body_length()] bytes into [body()]
    ends within [data_]. *)
Theorem buffers_within_bounds cs w p s :
  reachable cs w -> sessions w !! p = Some s ->
  msg_ok (chat_session.read_msg_ s) /\
  Forall msg_ok (chat_session.write_msgs_ s) /\
  (chat_message.header_length +
   Z.to_nat (chat_message.body_length (chat_session.read_msg_ s))
   <= List.length (chat_message.data_ (chat_session.read_msg_ s)))%nat.
Proof.
  intros Hreach Hs.
  assert (session_msgs_ok s) as [Hread Hqueue].
  { apply (everywhere cs session_msgs_ok) with (w := w) (p := p); try done.
    - apply session_msgs_ok_deliver. split; [apply msg_ok_default | done].
    - intros text s0. apply session_msgs_ok_deliver.
    - intros s0 s' Hstep _. by apply (session_msgs_ok_handler cs). }
  split; [done|]. split; [done|]. destruct Hread as [Hlen ->].
  unfold chat_message.body_length, chat_message.data_size, chat_message.header_length,
    chat_message.max_body_length in *.
  change (Z.to_nat 512) with 512%nat. lia.
Qed.

Lemma buffers_within_bounds_witness :
  reachable SignedChar (after SignedChar bob_joins) /\
  exists s, sessions (after SignedChar bob_joins) !! 2%nat = Some s /\
    msg_ok (chat_session.read_msg_ s).
Proof.
  assert (reachable SignedChar (after SignedChar bob_joins)) as Hreach
    by (exists bob_joins; vm_compute; reflexivity).
  split; [exact Hreach|].
  destruct (sessions (after SignedChar bob_joins) !! 2%nat) as [s|] eqn:Hs;
    [|vm_compute in Hs; discriminate].
  exists s. split; [reflexivity|].
  exact (proj1 (buffers_within_bounds SignedChar _ 2%nat s Hreach Hs)).
Defined.


Lemma outbound_do_read_header s :
  outbound (chat_session.do_read_header s) = outbound s.
Proof. by destruct s as [[rs ws wr] st nick rm q]. Qed.

(** X10.  In every state the event loop reaches, the frames a session has
    been given to send (those written, then those queued) are the frames
    of strings, built by [chat_message(std::string const&)], the first of
    them the welcome line of room "10001"; each has its 4 header bytes and
    at most 512 body bytes. *)
Theorem outbound_frames_of_strings cs w p s :
  reachable cs w -> sessions w !! p = Some s ->
  (exists texts,
     outbound s =
     map (fun text => chat_message.frame (chat_message.of_string text))
         (welcome "10001" :: texts)) /\
  Forall (fun fr => (4 <= List.length fr <= 516)%nat) (outbound s).
Proof.
  intros Hreach Hs.
  assert (exists texts,
            outbound s =
            map (fun text => chat_message.frame (chat_message.of_string text))
                (welcome "10001" :: texts)) as [texts Hout].
  { apply (everywhere cs (fun s => exists texts,
             outbound s =
             map (fun text => chat_message.frame (chat_message.of_string text))
                 (welcome "10001" :: texts))) with (w := w) (p := p); try done.
    - exists []. by rewrite outbound_do_read_header, deliver_outbound.
    - intros text s0 [texts0 H0]. exists (texts0 ++ [text]).
      by rewrite deliver_outbound, H0, app_comm_cons, map_app.
    - intros s0 s' Hstep Hok [texts0 H0].
      destruct (outbound_step _ _ (handler_session_step _ _ _ Hstep) Hok) as [[texts1 H1] _].
      exists (texts0 ++ texts1). by rewrite H1, H0, app_comm_cons, map_app. }
  split; [by exists texts|]. rewrite Hout. apply Forall_map, Forall_forall.
  intros text _. cbn beta.
  rewrite of_string_frame_length. lia.
Qed.

Lemma outbound_frames_of_strings_witness :
  reachable SignedChar (after SignedChar bob_joins) /\
  exists s, sessions (after SignedChar bob_joins) !! 2%nat = Some s /\
    head (outbound s) = Some (chat_message.frame (chat_message.of_string (welcome "10001"))).
Proof.
  assert (reachable SignedChar (after SignedChar bob_joins)) as Hreach
    by (exists bob_joins; vm_compute; reflexivity).
  split; [exact Hreach|].
  destruct (sessions (after SignedChar bob_joins) !! 2%nat) as [s|] eqn:Hs;
    [|vm_compute in Hs; discriminate].
  exists s. split; [reflexivity|].
  destruct (outbound_frames_of_strings SignedChar _ 2%nat s Hreach Hs) as [[texts ->] _].
  reflexivity.
Defined.

Lemma handler_step_authed cs s s' :
  handler_step cs s s' -> chat_session.state_ s = chat_session.AUTHED ->
  chat_session.state_ s' = chat_session.AUTHED /\
  chat_session.nickname_ s' = chat_session.nickname_ s.
Proof.
  intros Hstep Hst.
  destruct Hstep as [s rest bytes m Hr s1 Hdec|s rest bytes m Hr s1 Hdec|s rest bytes Hr
                     |s rest bytes Hr Hst' n s1|s rest bytes Hr Hst' n|s rest bytes Hr n
                     |s buf rest Hw|s buf rest Hw]; try done; try congruence.
  cbn. case_bool_decide; [done|]. unfold chat_session.do_write. cbn.
  by destruct (tail (chat_session.write_msgs_ s)).
Qed.

(** X11.  Once a session is authenticated it stays so and keeps its
    nickname: over any run of the event loop from a reachable state, a
    session in state [AUTHED] is still in state [AUTHED] with the same
    nickname. *)
Theorem nickname_fixed_once_authed cs evs w w' p s :
  reachable cs w -> run cs w evs = Some w' ->
  sessions w !! p = Some s -> chat_session.state_ s = chat_session.AUTHED ->
  exists s', sessions w' !! p = Some s' /\
    chat_session.state_ s' = chat_session.AUTHED /\
    chat_session.nickname_ s' = chat_session.nickname_ s.
Proof.
  intros Hreach Hrun Hs Hst.
  apply (stable_run cs (fun s' => chat_session.state_ s' = chat_session.AUTHED /\
                          chat_session.nickname_ s' = chat_session.nickname_ s))
    with (evs := evs) (w := w) (s := s); try done.
  - intros text s0 [H1 H2]. by rewrite deliver_state, deliver_nickname.
  - intros s0 s' Hstep _ [H1 H2].
    destruct (handler_step_authed _ _ _ Hstep H1) as [H3 H4]. split; congruence.
Qed.

Lemma nickname_fixed_once_authed_witness :
  exists w' s s',
    reachable SignedChar (after SignedChar alice_joins) /\
    run SignedChar (after SignedChar alice_joins)
        (Accepted success 2%nat :: frame_read 2%nat "bob") = Some w' /\
    sessions (after SignedChar alice_joins) !! 1%nat = Some s /\
    chat_session.state_ s = chat_session.AUTHED /\
    chat_session.nickname_ s = "alice" /\
    sessions w' !! 1%nat = Some s' /\
    chat_session.nickname_ s' = "alice".
Proof.
  destruct (run SignedChar (after SignedChar alice_joins)
              (Accepted success 2%nat :: frame_read 2%nat "bob")) as [w'|] eqn:Hrun;
    [|vm_compute in Hrun; discriminate].
  destruct (sessions (after SignedChar alice_joins) !! 1%nat) as [s|] eqn:Hs;
    [|vm_compute in Hs; discriminate].
  assert (chat_session.state_ s = chat_session.AUTHED) as Hst
    by (vm_compute in Hs; injection Hs as <-; reflexivity).
  assert (chat_session.nickname_ s = "alice") as Hnick
    by (vm_compute in Hs; injection Hs as <-; reflexivity).
  destruct (nickname_fixed_once_authed SignedChar _ _ _ 1%nat s
              (alice_joins_reachable SignedChar) Hrun Hs Hst) as (s' & Hs' & _ & Hsame).
  exists w', s, s'. split; [apply alice_joins_reachable|]. split; [reflexivity|].
  split; [reflexivity|]. split; [exact Hst|]. split; [exact Hnick|].
  split; [exact Hs' | congruence].
Defined.

(** X12.  In every state the event loop reaches, every member of the room
    is a session that exists and is in state [AUTHED]: a session that has
    not yet sent its name is no member and is sent no broadcast. *)
Theorem members_are_authed cs w p :
  reachable cs w -> p ∈ participants w ->
  exists s, sessions w !! p = Some s /\ chat_session.state_ s = chat_session.AUTHED.
Proof.
  intros [evs Hrun]. revert p.
  assert (forall evs w0 w1, reachable cs w0 -> run cs w0 evs = Some w1 ->
            (forall p, p ∈ participants w0 ->
               exists s, sessions w0 !! p = Some s /\
                 chat_session.state_ s = chat_session.AUTHED) ->
            forall p, p ∈ participants w1 ->
              exists s, sessions w1 !! p = Some s /\
                chat_session.state_ s = chat_session.AUTHED) as Hind.
  { clear. induction evs as [|ev evs IH]; intros w0 w1 Hreach; cbn [run].
    - by intros [= <-].
    - destruct (step cs w0 ev) as [w2|] eqn:Hstep; [|done]. intros Hrun Hall.
      apply (IH _ _ (reachable_step _ _ _ _ Hreach Hstep) Hrun). intros p Hp.
      assert (forall s, sessions w0 !! p = Some s ->
                chat_session.state_ s = chat_session.AUTHED ->
                exists s', sessions w2 !! p = Some s' /\
                  chat_session.state_ s' = chat_session.AUTHED) as Hkeeps.
      { intros s Hs Hst.
        apply (stable_step cs (fun s' => chat_session.state_ s' = chat_session.AUTHED))
          with (w := w0) (ev := ev) (s := s); try done.
        - intros text s0 H0. by rewrite deliver_state.
        - intros s0 s' Hh _ H0. by destruct (handler_step_authed _ _ _ Hh H0).
        - by eapply reachable_ok. }
      destruct (step_cases _ _ _ _ Hstep)
        as [->|[(Hev & Hfresh & Hroom & Hnew)
               |(s0 & s1 & texts & Hp0 & Hs0 & Hp' & _ & _ & Hpart & _)]].
      + by apply Hall.
      + rewrite Hroom in Hp. destruct (Hall _ Hp) as (s & Hs & Hst). by eapply Hkeeps.
      + destruct Hpart as [Hsame|[Hless|[Hmore Hst1]]].
        * rewrite Hsame in Hp. destruct (Hall _ Hp) as (s & Hs & Hst). by eapply Hkeeps.
        * rewrite Hless in Hp. apply elem_of_difference in Hp as [Hp _].
          destruct (Hall _ Hp) as (s & Hs & Hst). by eapply Hkeeps.
        * rewrite Hmore in Hp. apply elem_of_union in Hp as [Hp|Hp].
          -- apply elem_of_singleton in Hp as ->. eexists. split; [done|].
             by rewrite deliver_list_state.
          -- destruct (Hall _ Hp) as (s & Hs & Hst). by eapply Hkeeps. }
  apply (Hind _ _ _ (ex_intro _ [] eq_refl) Hrun).
  intros p Hp. cbn in Hp. by apply elem_of_empty in Hp.
Qed.

Lemma members_are_authed_witness :
  reachable SignedChar (after SignedChar bob_joins) /\
  2%nat ∈ participants (after SignedChar bob_joins) /\
  exists s, sessions (after SignedChar bob_joins) !! 2%nat = Some s /\
    chat_session.state_ s = chat_session.AUTHED.
Proof.
  assert (reachable SignedChar (after SignedChar bob_joins)) as Hreach
    by (exists bob_joins; vm_compute; reflexivity).
  assert (2%nat ∈ participants (after SignedChar bob_joins)) as Hin
    by (apply (bool_decide_unpack _); vm_compute; exact I).
  split; [exact Hreach|]. split; [exact Hin|].
  exact (members_are_authed SignedChar _ 2%nat Hreach Hin).
Defined.

End SessionInvariants.

(** ** Accepting a connection, and a write that fails *)

Section AcceptAndWriteError.

Implicit Types (w : server) (p q : nat) (s : chat_session.t) (ev : event).

Local Abbreviation participants w := (chat_room.participants_ (room_ w)).
Local Abbreviation room_name w := (chat_room.room_name_ (room_ w)).

(** X13.  An accepted connection adds one session and changes nothing
    else: the new session is not authenticated, has no name, is no member
    of the room, has the welcome line of the room as its only queued frame
    with the write of it outstanding, and has its first header read
    outstanding.  An accept that fails changes nothing. *)
Theorem accept_starts_session cs w p :
  sessions w !! p = None ->
  let hello := chat_message.of_string (welcome (room_name w)) in
  step cs w (Accepted success p) =
    Some (mk_server (room_ w)
            (<[p := chat_session.mk
                      (mk_socket [ReadHeader] [chat_message.frame hello] [])
                      chat_session.NOT_AUTHED "" chat_message.default [hello]]>
               (sessions w))) /\
  step cs w (Accepted failure p) = Some w.
Proof.
  intros Hfresh hello. split; [|reflexivity].
  cbn [step]. unfold on_accept. rewrite Hfresh. f_equal.
  unfold start, on_session, participant_deliver, put_session. cbn [sessions room_].
  f_equal. apply map_eq. intros q. rewrite !lookup_alter, !lookup_insert.
  destruct (decide (p = q)) as [->|Hne]; [|reflexivity].
  rewrite ?decide_True by done. reflexivity.
Qed.

Lemma accept_starts_session_witness :
  sessions (after SignedChar alice_joins) !! 2%nat = None /\
  exists w', step SignedChar (after SignedChar alice_joins) (Accepted success 2%nat) = Some w' /\
    participants w' = participants (after SignedChar alice_joins) /\
    (reads ∘ chat_session.socket_) <$> sessions w' !! 2%nat = Some [ReadHeader].
Proof.
  assert (sessions (after SignedChar alice_joins) !! 2%nat = None) as Hfresh
    by (vm_compute; reflexivity).
  split; [exact Hfresh|].
  destruct (accept_starts_session SignedChar _ 2%nat Hfresh) as [Hstep _].
  eexists. split; [exact Hstep|]. split; [reflexivity|].
  cbn [sessions]. by rewrite lookup_insert_eq.
Defined.

Lemma writes_stalled_preserved cs w ev w' p :
  server_ok w -> step cs w ev = Some w' -> writes_stalled p w ->
  writes_stalled p w' /\ ¬ is_write_of p ev.
Proof.
  intros Hok Hstep (s & Hs & Hnone & Hqueue). split.
  - destruct (stable_step cs
                (fun s' => writes (chat_session.socket_ s') = [] /\
                           chat_session.write_msgs_ s' ≠ [])) with
        (w := w) (ev := ev) (w' := w') (p := p) (s := s) as (s' & Hs' & H1 & H2);
      try done.
    + intros text s0 [H1 H2]. rewrite deliver_unfold. cbn.
      rewrite bool_decide_false by done. split; [done|]. by destruct (chat_session.write_msgs_ s0).
    + intros s0 s1 Hh _ [H1 H2].
      destruct Hh as [s0 rest bytes m Hr s1 Hdec|s0 rest bytes m Hr s1 Hdec|s0 rest bytes Hr
                      |s0 rest bytes Hr Hst n s1|s0 rest bytes Hr Hst n|s0 rest bytes Hr n
                      |s0 buf rest Hw|s0 buf rest Hw]; try done; congruence.
    + by exists s'.
  - destruct ev as [ec q|q ec bytes|q ec bytes|q ec]; cbn; try tauto. intros ->.
    by rewrite (write_not_outstanding cs w p s ec Hs Hnone) in Hstep.
Qed.

Lemma writes_stalled_run cs evs w w' p :
  reachable cs w -> run cs w evs = Some w' -> writes_stalled p w ->
  writes_stalled p w' /\ Forall (fun ev => ¬ is_write_of p ev) evs.
Proof.
  revert w. induction evs as [|ev evs IH]; intros w Hreach; cbn [run].
  - intros [= <-] ?. by split.
  - destruct (step cs w ev) as [w1|] eqn:Hstep; [|done]. intros Hrun Hstalled.
    destruct (writes_stalled_preserved _ _ _ _ _ (reachable_ok _ _ Hreach) Hstep Hstalled)
      as [H1 Hev].
    destruct (IH _ (reachable_step _ _ _ _ Hreach Hstep) Hrun H1) as [H2 Hevs].
    split; [done | by constructor].
Qed.

(** X14.  When a write of a session fails, the handler calls [leave],
    pops nothing and starts nothing; from then on the session has frames
    queued and no write outstanding for ever: no later run completes or
    starts a write for it, and what it has written stays what it was. *)
Theorem write_failure_stops_writes cs w p s :
  reachable cs w -> sessions w !! p = Some s ->
  writes (chat_session.socket_ s) ≠ [] ->
  exists w',
    step cs w (Written p failure) = Some w' /\
    participants w' = participants w ∖ {[p]} /\
    sessions w' !! p = Some (write_dropped s) /\
    forall evs w'', run cs w' evs = Some w'' ->
      Forall (fun ev => ¬ is_write_of p ev) evs /\
      exists s'', sessions w'' !! p = Some s'' /\
        writes (chat_session.socket_ s'') = [] /\
        chat_session.write_msgs_ s'' ≠ [] /\
        written (chat_session.socket_ s'') = written (chat_session.socket_ s).
Proof.
  intros Hreach Hs Hpending.
  pose proof (write_fails cs _ _ _ (reachable_ok _ _ Hreach) Hs Hpending) as Hstep.
  destruct (write_completes cs _ _ _ (reachable_ok _ _ Hreach) Hs Hpending)
    as (m & rest & Hq & _ & _).
  eexists. split; [exact Hstep|]. split; [reflexivity|].
  assert (sessions (leave p (put_session p (write_dropped s) w)) !! p =
          Some (write_dropped s)) as Hp'
    by (by rewrite leave_sessions, put_session_lookup, decide_True).
  split; [exact Hp'|]. intros evs w'' Hrun.
  pose proof (reachable_step _ _ _ _ Hreach Hstep) as Hreach'.
  split.
  - eapply writes_stalled_run; [exact Hreach' | exact Hrun |].
    exists (write_dropped s). split; [done|]. split; [done|]. cbn. by rewrite Hq.
  - destruct (stable_run cs
                (fun s' => writes (chat_session.socket_ s') = [] /\
                           chat_session.write_msgs_ s' ≠ [] /\
                           written (chat_session.socket_ s') =
                           written (chat_session.socket_ s))) with
        (evs := evs) (w := leave p (put_session p (write_dropped s) w)) (w' := w'')
        (p := p) (s := write_dropped s) as (s'' & Hs'' & HP); try done.
    + intros text s0 (H1 & H2 & H3). rewrite deliver_unfold. cbn.
      rewrite bool_decide_false by done.
      split; [done|]. split; [by destruct (chat_session.write_msgs_ s0) | done].
    + intros s0 s1 Hh _ (H1 & H2 & H3).
      destruct Hh as [s0 rest0 bytes m0 Hr s1 Hdec|s0 rest0 bytes m0 Hr s1 Hdec|s0 rest0 bytes Hr
                      |s0 rest0 bytes Hr Hst n s1|s0 rest0 bytes Hr Hst n|s0 rest0 bytes Hr n
                      |s0 buf rest0 Hw|s0 buf rest0 Hw]; try done; congruence.
    + cbn. by rewrite Hq.
    + by exists s''.
Qed.

Lemma write_failure_stops_writes_witness :
  reachable SignedChar (after SignedChar alice_joins) /\
  exists s w',
    sessions (after SignedChar alice_joins) !! 1%nat = Some s /\
    writes (chat_session.socket_ s) ≠ [] /\
    step SignedChar (after SignedChar alice_joins) (Written 1 failure) = Some w' /\
    participants w' = participants (after SignedChar alice_joins) ∖ {[1%nat]} /\
    run SignedChar w' [Written 1 success] = None.
Proof.
  split; [apply alice_joins_reachable|].
  destruct (sessions (after SignedChar alice_joins) !! 1%nat) as [s|] eqn:Hs;
    [|vm_compute in Hs; discriminate].
  assert (writes (chat_session.socket_ s) ≠ []) as Hpending
    by (vm_compute in Hs; injection Hs as <-; discriminate).
  destruct (write_failure_stops_writes SignedChar _ 1%nat s
              (alice_joins_reachable SignedChar) Hs Hpending)
    as (w' & Hstep & Hpart & Hp' & Hlater).
  exists s, w'. split; [reflexivity|]. split; [exact Hpending|].
  split; [exact Hstep|]. split; [exact Hpart|].
  destruct (run SignedChar w' [Written 1 success]) as [w''|] eqn:Hrun; [|reflexivity].
  destruct (Hlater _ _ Hrun) as [Hnone _].
  apply Forall_cons in Hnone as [Hnot _]. by destruct Hnot.
Defined.

End AcceptAndWriteError.

(** ** Reading one frame *)

Section FrameRead.

Implicit Types (w : server) (p q : nat) (s : chat_session.t) (text : string).

Local Abbreviation participants w := (chat_room.participants_ (room_ w)).
Local Abbreviation recent_msgs w := (chat_room.recent_msgs_ (room_ w)).

(** The read buffer after the header of the frame of [text] has been read
    into it and accepted. *)
Local Abbreviation header_read s text :=
  (chat_message.mk
     (chat_message.store 0 (chat_message.header (chat_message.of_string text))
        (chat_message.data_ (chat_session.read_msg_ s)))
     (Z.of_nat (String.length text))).

Lemma decode_header_same_header cs (m m' : chat_message.t) :
  (forall i, (i < 4)%nat ->
     chat_message.at_ (chat_message.data_ m) i = chat_message.at_ (chat_message.data_ m') i) ->
  chat_message.decode_header cs m =
  (chat_message.mk (chat_message.data_ m)
     (chat_message.body_length_ (fst (chat_message.decode_header cs m'))),
   snd (chat_message.decode_header cs m')).
Proof.
  intros Hsame. rewrite (decode_header_first_four cs m), (decode_header_first_four cs m').
  rewrite !Hsame by lia.
  destruct (chat_message.decode_header cs _) as [r ok]. reflexivity.
Qed.

Lemma decode_header_of_readable cs text :
  (String.length text <= 512)%nat ->
  header_readable cs (Z.of_nat (String.length text)) ->
  chat_message.decode_header cs (chat_message.of_string text) =
  (chat_message.of_string text, true).
Proof.
  intros Hshort Hreadable.
  pose proof (of_string_body_length text) as Hlen.
  unfold chat_message.max_body_length in Hlen.
  destruct Hreadable as [->|Hlow]; [apply roundtrip_unsigned|].
  destruct cs; [|apply roundtrip_unsigned]. rewrite roundtrip_signed.
  replace (chat_message.body_length_ (chat_message.of_string text))
    with (Z.of_nat (String.length text)) by lia.
  by rewrite (proj2 (Z.leb_gt _ _)) by lia.
Qed.

Lemma header_accepted cs w p s text :
  sessions w !! p = Some s -> reads (chat_session.socket_ s) = [ReadHeader] ->
  (String.length text <= 512)%nat ->
  header_readable cs (Z.of_nat (String.length text)) ->
  step cs w (HeaderRead p success (chat_message.header (chat_message.of_string text))) =
  Some (put_session p
          (chat_session.mk
             (mk_socket [ReadBody] (writes (chat_session.socket_ s))
                        (written (chat_session.socket_ s)))
             (chat_session.state_ s) (chat_session.nickname_ s)
             (header_read s text) (chat_session.write_msgs_ s)) w).
Proof.
  intros Hs Hreads Hshort Hreadable. cbn [step]. unfold on_read_header.
  rewrite Hs, Hreads.
  pose proof (of_string_header_length text) as Hhdr.
  assert (take chat_message.header_length (chat_message.header (chat_message.of_string text)) = chat_message.header (chat_message.of_string text)) as Htake.
  { apply take_ge, Nat.eq_le_incl. exact Hhdr. }
  rewrite Htake.
  set (s1 := read_completed 0 (chat_message.header (chat_message.of_string text)) s).
  assert (chat_message.decode_header cs (chat_session.read_msg_ s1) =
          (header_read s text, true)) as ->.
  { rewrite (decode_header_same_header cs _ (chat_message.of_string text)).
    - rewrite decode_header_of_readable by done. cbn [fst snd].
      pose proof (of_string_body_length text) as Hlen.
      unfold chat_message.max_body_length in Hlen. rewrite Hlen.
      replace (Z.of_nat (String.length text) `min` 512) with (Z.of_nat (String.length text))
        by lia.
      reflexivity.
    - intros i Hi. cbn [s1 read_completed chat_session.read_msg_ chat_message.data_].
      unfold chat_message.store, chat_message.at_. rewrite take_0, app_nil_l.
      rewrite app_nth1 by (rewrite Hhdr; exact Hi).
      unfold chat_message.header, chat_message.header_length.
      rewrite nth_firstn. by rewrite (proj2 (Nat.ltb_lt _ _)) by exact Hi. }
  destruct s as [[rs ws wr] st nick rm qu]. cbn in Hreads. subst rs. reflexivity.
Qed.

Lemma body_after_read (d bs : list ascii) :
  (4 <= List.length d)%nat ->
  chat_message.body
    (chat_message.mk (chat_message.store chat_message.header_length bs d)
                     (Z.of_nat (List.length bs))) = bs.
Proof.
  intros Hd. unfold chat_message.body, chat_message.store, chat_message.header_length.
  cbn [chat_message.data_ chat_message.body_length_].
  rewrite drop_app_length' by (rewrite length_take; lia).
  rewrite Nat2Z.id. by rewrite take_app_length.
Qed.

(** The session when the body of the frame of [text] has been read into
    its buffer, before the handler looks at [state_]. *)
Local Abbreviation body_read s text :=
  (chat_session.mk
     (mk_socket [] (writes (chat_session.socket_ s)) (written (chat_session.socket_ s)))
     (chat_session.state_ s) (chat_session.nickname_ s)
     (chat_message.mk
        (chat_message.store chat_message.header_length (list_ascii_of_string text)
           (chat_message.data_ (header_read s text)))
        (Z.of_nat (String.length text)))
     (chat_session.write_msgs_ s)).

Lemma body_string_body_read s text : body_string (body_read s text) = text.
Proof.
  unfold body_string. cbn [chat_session.read_msg_].
  rewrite <- (length_list_ascii_of_string text), body_after_read.
  - apply string_of_list_ascii_of_string.
  - cbn [chat_message.data_]. unfold chat_message.store. rewrite take_0, app_nil_l.
    rewrite length_app, of_string_header_length. unfold chat_message.header_length. lia.
Qed.

Lemma frame_read_run cs w p s text :
  sessions w !! p = Some s -> reads (chat_session.socket_ s) = [ReadHeader] ->
  (String.length text <= 512)%nat ->
  header_readable cs (Z.of_nat (String.length text)) ->
  run cs w (frame_read p text) =
  Some (on_session p chat_session.do_read_header
          match chat_session.state_ s with
          | chat_session.NOT_AUTHED =>
              join p (participant_deliver p auth_passed
                        (put_session p
                           (chat_session.mk (chat_session.socket_ (body_read s text))
                              chat_session.AUTHED text
                              (chat_session.read_msg_ (body_read s text))
                              (chat_session.write_msgs_ s)) w))
          | chat_session.AUTHED => room_deliver text p (put_session p (body_read s text) w)
          | chat_session.FAILED => put_session p (body_read s text) w
          end).
Proof.
  intros Hs Hreads Hshort Hreadable. unfold frame_read. cbn [run].
  rewrite (header_accepted cs w p s text) by done.
  cbn [step]. unfold on_read_body.
  rewrite put_session_lookup, decide_True by done.
  cbn [chat_session.socket_ reads chat_session.read_msg_ chat_message.body_length
       chat_message.body_length_].
  rewrite Nat2Z.id, body_of_short by done.
  rewrite take_ge by (by rewrite length_list_ascii_of_string).
  match goal with |- context [read_completed ?a ?b ?c] =>
    change (read_completed a b c) with (body_read s text) end.
  rewrite body_string_body_read. cbn [chat_session.state_ chat_session.write_msgs_].
  f_equal. f_equal.
  assert (forall s', put_session p s' (put_session p
            (chat_session.mk
               (mk_socket [ReadBody] (writes (chat_session.socket_ s))
                          (written (chat_session.socket_ s)))
               (chat_session.state_ s) (chat_session.nickname_ s)
               (header_read s text) (chat_session.write_msgs_ s)) w) = put_session p s' w)
    as Hput.
  { intros s'. unfold put_session. cbn [room_ sessions]. f_equal. apply insert_insert_eq. }
  rewrite !Hput. reflexivity.
Qed.


Lemma chat_session_state_do_read_header s :
  chat_session.state_ (chat_session.do_read_header s) = chat_session.state_ s.
Proof. done. Qed.

Lemma chat_session_nickname_do_read_header s :
  chat_session.nickname_ (chat_session.do_read_header s) = chat_session.nickname_ s.
Proof. done. Qed.

Lemma chat_session_queue_do_read_header s :
  chat_session.write_msgs_ (chat_session.do_read_header s) = chat_session.write_msgs_ s.
Proof. done. Qed.

(** X15.  The first frame a session reads gives it its name.  When a
    session that waits for a header in state [NOT_AUTHED] reads the frame
    of a string of at most 512 bytes whose header [decode_header] reads
    back, it becomes [AUTHED] with that string as its nickname, is
    delivered the confirmation line and then what [join] replays, becomes
    a member, and waits for the next header; every other member is
    delivered the join notice that carries the name, and the history is
    as it was. *)
Theorem first_frame_names_session cs w p s text :
  sessions w !! p = Some s -> reads (chat_session.socket_ s) = [ReadHeader] ->
  chat_session.state_ s = chat_session.NOT_AUTHED ->
  (String.length text <= 512)%nat ->
  header_readable cs (Z.of_nat (String.length text)) ->
  exists w' s',
    run cs w (frame_read p text) = Some w' /\
    participants w' = {[p]} ∪ participants w /\
    recent_msgs w' = recent_msgs w /\
    sessions w' !! p = Some s' /\
    chat_session.state_ s' = chat_session.AUTHED /\
    chat_session.nickname_ s' = text /\
    chat_session.write_msgs_ s' =
      chat_session.write_msgs_ s ++
      map chat_message.of_string (auth_passed :: replayed (recent_msgs w)) /\
    reads (chat_session.socket_ s') = [ReadHeader] /\
    forall q, q ≠ p ->
      sessions w' !! q =
      if decide (q ∈ participants w)
      then chat_session.deliver (system_prefix +:+ (text +:+ joined_suffix))
             <$> sessions w !! q
      else sessions w !! q.
Proof.
  intros Hs Hreads Hst Hshort Hreadable.
  rewrite (frame_read_run cs w p s text) by done. rewrite Hst.
  set (s2 := chat_session.mk _ chat_session.AUTHED text _ _).
  set (w0 := participant_deliver p auth_passed (put_session p s2 w)).
  assert (sessions w0 !! p = Some (chat_session.deliver auth_passed s2)) as Hp0.
  { unfold w0. by rewrite participant_deliver_lookup, decide_True, put_session_lookup,
      decide_True. }
  assert (room_ w0 = room_ w) as Hroom0 by done.
  assert (participant_nickname p w0 = text) as Hnick0.
  { unfold participant_nickname. rewrite Hp0. cbn. by rewrite deliver_nickname. }
  eexists _, _. split; [reflexivity|].
  split; [unfold on_session; cbn [room_]; by rewrite join_room, Hroom0|].
  split; [unfold on_session; cbn [room_]; by rewrite join_room, Hroom0|].
  split.
  { rewrite on_session_lookup, decide_True, join_lookup, decide_True, Hp0 by done.
    reflexivity. }
  rewrite Hroom0.
  split; [by rewrite chat_session_state_do_read_header, deliver_list_state, deliver_state|].
  split; [by rewrite chat_session_nickname_do_read_header, deliver_list_nickname,
            deliver_nickname|].
  split.
  { rewrite chat_session_queue_do_read_header, deliver_list_write_msgs, deliver_write_msgs.
    cbn [map]. by rewrite <- app_assoc. }
  split.
  { cbn [chat_session.do_read_header chat_session.set_socket chat_session.socket_ reads].
    by rewrite deliver_list_reads, deliver_reads. }
  intros q Hq. rewrite on_session_lookup, decide_False by done.
  rewrite join_lookup, decide_False, Hroom0, Hnick0 by done.
  unfold w0. rewrite participant_deliver_lookup, put_session_lookup.
  by rewrite !(decide_False (P := p = q)) by done.
Qed.

(** X16.  A later frame is relayed.  When a session that waits for a
    header in state [AUTHED] reads the frame of a string of at most 512
    bytes whose header [decode_header] reads back, the line made of its
    nickname, " says: " and that string is appended to the history (the
    oldest entries beyond 100 dropped) and delivered once to every other
    member; the session itself keeps its state, nickname and queue and
    waits for the next header; membership is as it was. *)
Theorem later_frame_is_relayed cs w p s text :
  sessions w !! p = Some s -> reads (chat_session.socket_ s) = [ReadHeader] ->
  chat_session.state_ s = chat_session.AUTHED ->
  (String.length text <= 512)%nat ->
  header_readable cs (Z.of_nat (String.length text)) ->
  let line := chat_session.nickname_ s +:+ says +:+ text in
  exists w' s',
    run cs w (frame_read p text) = Some w' /\
    participants w' = participants w /\
    recent_msgs w' = pop_while_over (recent_msgs w ++ [line]) /\
    sessions w' !! p = Some s' /\
    chat_session.state_ s' = chat_session.AUTHED /\
    chat_session.nickname_ s' = chat_session.nickname_ s /\
    chat_session.write_msgs_ s' = chat_session.write_msgs_ s /\
    writes (chat_session.socket_ s') = writes (chat_session.socket_ s) /\
    reads (chat_session.socket_ s') = [ReadHeader] /\
    forall q, q ≠ p ->
      sessions w' !! q =
      if decide (q ∈ participants w)
      then chat_session.deliver line <$> sessions w !! q
      else sessions w !! q.
Proof.
  intros Hs Hreads Hst Hshort Hreadable line.
  rewrite (frame_read_run cs w p s text) by done. rewrite Hst.
  set (s2 := chat_session.mk _ chat_session.AUTHED _ _ _).
  assert (participant_nickname p (put_session p s2 w) = chat_session.nickname_ s) as Hnick.
  { unfold participant_nickname. by rewrite put_session_lookup, decide_True. }
  eexists _, _. split; [reflexivity|].
  split; [unfold on_session; cbn [room_]; by rewrite room_deliver_room|].
  split; [unfold on_session; cbn [room_]; by rewrite room_deliver_room, Hnick|].
  split.
  { rewrite on_session_lookup, decide_True, room_deliver_lookup by done.
    rewrite decide_False by (by intros [_ ?]).
    rewrite put_session_lookup, decide_True by done. reflexivity. }
  split; [reflexivity|]. split; [reflexivity|]. split; [reflexivity|].
  split; [reflexivity|]. split; [reflexivity|].
  intros q Hq. rewrite on_session_lookup, decide_False by done.
  rewrite room_deliver_lookup, Hnick, put_session_lookup.
  rewrite !(decide_False (P := p = q)) by done.
  cbn [room_ put_session].
  destruct (decide (q ∈ participants w)) as [Hin|Hout].
  - rewrite decide_True; [done | by split].
  - rewrite decide_False; [done | by intros [? _]].
Qed.

Lemma first_frame_names_session_witness :
  let w := after SignedChar [Accepted success 1%nat] in
  exists s w' s',
    sessions w !! 1%nat = Some s /\ reads (chat_session.socket_ s) = [ReadHeader] /\
    chat_session.state_ s = chat_session.NOT_AUTHED /\
    (String.length "alice" <= 512)%nat /\
    header_readable SignedChar (Z.of_nat (String.length "alice")) /\
    run SignedChar w (frame_read 1 "alice") = Some w' /\
    sessions w' !! 1%nat = Some s' /\ chat_session.nickname_ s' = "alice" /\
    participants w' = {[1%nat]} ∪ participants w.
Proof.
  cbv zeta.
  destruct (sessions (after SignedChar [Accepted success 1%nat]) !! 1%nat) as [s|] eqn:Hs;
    [|vm_compute in Hs; discriminate].
  assert (reads (chat_session.socket_ s) = [ReadHeader]) as Hreads
    by (vm_compute in Hs; injection Hs as <-; reflexivity).
  assert (chat_session.state_ s = chat_session.NOT_AUTHED) as Hst
    by (vm_compute in Hs; injection Hs as <-; reflexivity).
  assert (String.length "alice" <= 512)%nat as Hshort by (cbn; lia).
  assert (header_readable SignedChar (Z.of_nat (String.length "alice"))) as Hreadable
    by (right; vm_compute; reflexivity).
  destruct (first_frame_names_session SignedChar _ 1%nat s "alice" Hs Hreads Hst Hshort
              Hreadable) as (w' & s' & Hrun & Hpart & _ & Hs' & _ & Hnick & _).
  exists s, w', s'. repeat (split; [done|]). done.
Defined.

Lemma later_frame_is_relayed_witness :
  let w := after SignedChar bob_joins in
  exists s w' s',
    sessions w !! 1%nat = Some s /\ reads (chat_session.socket_ s) = [ReadHeader] /\
    chat_session.state_ s = chat_session.AUTHED /\
    chat_session.nickname_ s = "alice" /\
    (String.length "hello" <= 512)%nat /\
    header_readable SignedChar (Z.of_nat (String.length "hello")) /\
    run SignedChar w (frame_read 1 "hello") = Some w' /\
    sessions w' !! 1%nat = Some s' /\
    recent_msgs w' = pop_while_over (recent_msgs w ++ ["alice says: hello"]).
Proof.
  cbv zeta.
  destruct (sessions (after SignedChar bob_joins) !! 1%nat) as [s|] eqn:Hs;
    [|vm_compute in Hs; discriminate].
  assert (reads (chat_session.socket_ s) = [ReadHeader]) as Hreads
    by (vm_compute in Hs; injection Hs as <-; reflexivity).
  assert (chat_session.state_ s = chat_session.AUTHED) as Hst
    by (vm_compute in Hs; injection Hs as <-; reflexivity).
  assert (chat_session.nickname_ s = "alice") as Hnick
    by (vm_compute in Hs; injection Hs as <-; reflexivity).
  assert (String.length "hello" <= 512)%nat as Hshort by (cbn; lia).
  assert (header_readable SignedChar (Z.of_nat (String.length "hello"))) as Hreadable
    by (right; vm_compute; reflexivity).
  destruct (later_frame_is_relayed SignedChar _ 1%nat s "hello" Hs Hreads Hst Hshort
              Hreadable) as (w' & s' & Hrun & _ & Hrecent & Hs' & _).
  rewrite Hnick in Hrecent.
  exists s, w', s'. repeat (split; [done|]). done.
Defined.

End FrameRead.
